(** * Latin-square team assigner: model and verification

    A shallow embedding of [latin_square_assigner.py].  Python integers are
    [Z], lists are [list], the returned [Dict[str, List[str]]] is a
    [gmap string (list string)] (insertion order carries no meaning for the
    caller), exceptions are an explicit error type, and the process-wide
    random source is a state threaded through [assign_teams].  A second,
    insertion-ordered model of the dictionary carries what [main] prints,
    and the rate-limited handler of [aipm_service.py] is modelled as a
    transition on its recorded time. *)

From stdpp Require Import gmap strings list fin_maps pretty sorting.

Local Open Scope Z_scope.

(** ** Exceptions and the error monad *)

Inductive exn : Type :=
  | ZeroDivisionError
  | ValueError (msg : string)
  | IndexError.

Inductive result (A : Type) : Type :=
  | Ok (a : A)
  | Raise (e : exn).
Arguments Ok {A} a.
Arguments Raise {A} e.

#[global] Instance result_ret : MRet result := λ A a, Ok a.
#[global] Instance result_bind : MBind result := λ A B f m,
  match m with
  | Ok a => f a
  | Raise e => Raise e
  end.

(** A [for] loop whose body may raise: the exception ends the loop. *)
Fixpoint for_each {A S} (body : S → A → result S) (acc : S) (l : list A)
    : result S :=
  match l with
  | [] => Ok acc
  | x :: l' => acc' ← body acc x ; for_each body acc' l'
  end.

(** A list comprehension whose element expression may raise. *)
Fixpoint comprehension {A B} (f : A → result B) (l : list A) : result (list B) :=
  match l with
  | [] => Ok []
  | x :: l' => y ← f x ; ys ← comprehension f l' ; Ok (y :: ys)
  end.

(** ** Python primitives *)

(** [range(n)]: empty when [n <= 0]. *)
Definition range (n : Z) : list Z := seqZ 0 n.

(** [len(l)] as a Python integer. *)
Definition len {A} (l : list A) : Z := Z.of_nat (length l).

(** [enumerate(l)]. *)
Definition enumerate {A} (l : list A) : list (Z * A) := zip (range (len l)) l.

(** [l[i]]: a negative index counts from the end, anything outside
    [-len(l) <= i < len(l)] raises [IndexError]. *)
Definition getitem {A} (l : list A) (i : Z) : result A :=
  let j := if i <? 0 then i + len l else i in
  if (0 <=? j) && (j <? len l)
  then match l !! Z.to_nat j with
       | Some x => Ok x
       | None => Raise IndexError
       end
  else Raise IndexError.

(** [a % b] on Python integers: the sign follows the divisor, and a zero
    divisor raises. *)
Definition py_mod (a b : Z) : result Z :=
  if b =? 0 then Raise ZeroDivisionError else Ok (a `mod` b).

(** [str(n)] for an integer, as used by the f-strings. *)
Definition str (n : Z) : string := pretty n.

(** ** [latin_square] *)

(** [[(i + j) % n for j in range(n)] for i in range(n)].  The modulus is
    evaluated only inside [range(n)], hence only for [n >= 1]. *)
Definition latin_square (n : Z) : list (list Z) :=
  (λ i, (λ j, (i + j) `mod` n) <$> range n) <$> range n.

(** Column [j] of a table. *)
Definition column (j : Z) (sq : list (list Z)) : list Z :=
  (λ row, row !!! Z.to_nat j) <$> sq.

(** ** [assign_teams] *)

Definition error_message (num_teams k : Z) : string :=
  "Number of teams (" +:+ str num_teams +:+
  ") must be a multiple of the number of conditions (" +:+ str k +:+ ").".

Definition team_name (team_no : Z) : string := "Team " +:+ str (team_no + 1).

(** Body of the inner loop, for one [(row_idx, row)] of the square. *)
Definition assign_row (conditions : list string) (team_indices : list Z)
    (k block : Z) (assignments : gmap string (list string))
    (entry : Z * list Z) : result (gmap string (list string)) :=
  team_no ← getitem team_indices (block * k + entry.1) ;
  sequence ← comprehension (getitem conditions) entry.2 ;
  Ok (<[team_name team_no := sequence]> assignments).

(** The two nested loops, run on the shuffled index list. *)
Definition assign_blocks (conditions : list string) (team_indices : list Z)
    (k teams_per_square : Z) (square : list (list Z))
    : result (gmap string (list string)) :=
  for_each
    (λ assignments block,
       for_each (assign_row conditions team_indices k block)
                assignments (enumerate square))
    ∅ (range teams_per_square).

Section Assigner.
(** The shared random source: its state, [random.shuffle] as a function of
    the state, and [random.seed]. *)
Context {RandomState : Type}.
Variable shuffle : RandomState → list Z → list Z * RandomState.
Variable seed : Z → RandomState.

Definition assign_teams (num_teams : Z) (conditions : list string)
    (rng : RandomState)
    : result (gmap string (list string)) * RandomState :=
  let k := len conditions in
  match py_mod num_teams k with
  | Raise e => (Raise e, rng)
  | Ok r =>
    if negb (r =? 0) then (Raise (ValueError (error_message num_teams k)), rng)
    else
      let square := latin_square k in
      let teams_per_square := num_teams `div` k in
      let '(team_indices, rng') := shuffle rng (range num_teams) in
      (assign_blocks conditions team_indices k teams_per_square square, rng')
  end.

(** [main] up to the call of [assign_teams]: the optional [--seed] resets
    the random source first.  Printing is left to the caller. *)
Definition main (args_teams : Z) (args_conditions : list string)
    (args_seed : option Z) (rng : RandomState)
    : result (gmap string (list string)) * RandomState :=
  let rng0 := match args_seed with
              | Some s => seed s
              | None => rng
              end in
  assign_teams args_teams args_conditions rng0.
End Assigner.

(** ** A concrete random source

    A small deterministic generator used to run the model: the state is a
    counter and a shuffle rotates the list by it. *)
Module Rotor.
Definition shuffle (s : nat) (l : list Z) : list Z * nat :=
  (rotate s l, S s).
Definition seed (v : Z) : nat := Z.to_nat (Z.abs v).
End Rotor.

(** ** Runs against the random source as the library presents it

    [random.shuffle] and [random.seed] act on a hidden, process-wide state.
    Here a call is a relation: given the state it finds, what it may return
    and which state it may leave.  [assign_teams_run] and [main_run] are
    the runs of the code against such a source; nothing in them says that a
    call gives the same answer twice. *)
Section Runs.
Context {RandomState : Type}.
(** [shuffles rng l l' rng']: shuffling [l] in state [rng] may leave the
    list as [l'] and the state as [rng']. *)
Variable shuffles : RandomState → list Z → list Z → RandomState → Prop.
(** [seeds s rng rng']: [random.seed(s)] in state [rng] may leave [rng']. *)
Variable seeds : Z → RandomState → RandomState → Prop.

Inductive assign_teams_run (num_teams : Z) (conditions : list string)
    (rng : RandomState)
    : result (gmap string (list string)) → RandomState → Prop :=
  | run_mod_raises e :
      py_mod num_teams (len conditions) = Raise e →
      assign_teams_run num_teams conditions rng (Raise e) rng
  | run_rejected r :
      py_mod num_teams (len conditions) = Ok r → r ≠ 0 →
      assign_teams_run num_teams conditions rng
        (Raise (ValueError (error_message num_teams (len conditions)))) rng
  | run_assigned r team_indices rng' :
      py_mod num_teams (len conditions) = Ok r → r = 0 →
      shuffles rng (range num_teams) team_indices rng' →
      assign_teams_run num_teams conditions rng
        (assign_blocks conditions team_indices (len conditions)
           (num_teams `div` len conditions) (latin_square (len conditions)))
        rng'.

Inductive main_run (args_teams : Z) (args_conditions : list string)
    (args_seed : option Z) (rng : RandomState)
    : result (gmap string (list string)) → RandomState → Prop :=
  | main_run_seeded s rng0 outcome rng' :
      args_seed = Some s → seeds s rng rng0 →
      assign_teams_run args_teams args_conditions rng0 outcome rng' →
      main_run args_teams args_conditions args_seed rng outcome rng'
  | main_run_unseeded outcome rng' :
      args_seed = None →
      assign_teams_run args_teams args_conditions rng outcome rng' →
      main_run args_teams args_conditions args_seed rng outcome rng'.
End Runs.

(** The calls of a source given by functions, as relations. *)
Definition shuffles_of {RandomState}
    (shuffle : RandomState → list Z → list Z * RandomState)
    : RandomState → list Z → list Z → RandomState → Prop :=
  λ rng l l' rng', shuffle rng l = (l', rng').

Definition seeds_of {RandomState} (seed : Z → RandomState)
    : Z → RandomState → RandomState → Prop :=
  λ s _ rng', rng' = seed s.

(** ** Notions used to state the results *)

(** The label sequence handed to the team that sits on square row [r]. *)
Definition row_sequence (conditions : list string) (r : Z) : list string :=
  (λ j, conditions !!! Z.to_nat ((r + j) `mod` len conditions))
    <$> range (len conditions).

(** The dictionary entries written while processing block [b]. *)
Definition block_entries (conditions : list string) (team_indices : list Z)
    (b : Z) : list (string * list string) :=
  (λ r, (team_name (team_indices !!! Z.to_nat (b * len conditions + r)),
         row_sequence conditions r)) <$> range (len conditions).

(** All entries, in the order the loops write them. *)
Definition all_entries (conditions : list string) (team_indices : list Z)
    (m : Z) : list (string * list string) :=
  range m ≫= block_entries conditions team_indices.

(** [assignments[key] = value] *)
Definition setitem (d : gmap string (list string))
    (e : string * list string) : gmap string (list string) :=
  <[e.1 := e.2]> d.

(** Number of teams whose sequence has label [c] at position [p]. *)
Definition teams_with (d : gmap string (list string)) (p : Z) (c : string)
    : nat :=
  length (filter (λ e, e.2 !! Z.to_nat p = Some c) (map_to_list d)).

(** Number of slots of [conditions] that carry label [c]. *)
Definition occurrences (c : string) (conditions : list string) : nat :=
  length (filter (λ x, x = c) conditions).

(** ** [latin_square] with its modulus spelled as the operation that raises *)

Definition latin_square_checked (n : Z) : result (list (list Z)) :=
  comprehension
    (λ i, comprehension (λ j, py_mod (i + j) n) (range n))
    (range n).

(** ** The dictionary with its insertion order

    [dict.items()] walks the keys in the order they were first written;
    writing to a key that is present replaces the value where it stands. *)

Fixpoint odict_set (d : list (string * list string)) (key : string)
    (value : list string) : list (string * list string) :=
  match d with
  | [] => [(key, value)]
  | (key', value') :: d' =>
    if decide (key' = key) then (key', value) :: d'
    else (key', value') :: odict_set d' key value
  end.

Definition assign_row_ordered (conditions : list string)
    (team_indices : list Z) (k block : Z)
    (assignments : list (string * list string)) (entry : Z * list Z)
    : result (list (string * list string)) :=
  team_no ← getitem team_indices (block * k + entry.1) ;
  sequence ← comprehension (getitem conditions) entry.2 ;
  Ok (odict_set assignments (team_name team_no) sequence).

Definition assign_blocks_ordered (conditions : list string)
    (team_indices : list Z) (k teams_per_square : Z) (square : list (list Z))
    : result (list (string * list string)) :=
  for_each
    (λ assignments block,
       for_each (assign_row_ordered conditions team_indices k block)
                assignments (enumerate square))
    [] (range teams_per_square).

(** [sep.join(l)] *)
Fixpoint join (sep : string) (l : list string) : string :=
  match l with
  | [] => ""
  | [x] => x
  | x :: l' => x +:+ sep +:+ join sep l'
  end.

(** One printed line: [f"{team}: {', '.join(sequence)}"]. *)
Definition print_line (item : string * list string) : string :=
  item.1 +:+ ": " +:+ join ", " item.2.

Section Printing.
Context {RandomState : Type}.
Variable shuffle : RandomState → list Z → list Z * RandomState.
Variable seed : Z → RandomState.

Definition assign_teams_ordered (num_teams : Z) (conditions : list string)
    (rng : RandomState)
    : result (list (string * list string)) * RandomState :=
  let k := len conditions in
  match py_mod num_teams k with
  | Raise e => (Raise e, rng)
  | Ok r =>
    if negb (r =? 0) then (Raise (ValueError (error_message num_teams k)), rng)
    else
      let square := latin_square k in
      let teams_per_square := num_teams `div` k in
      let '(team_indices, rng') := shuffle rng (range num_teams) in
      (assign_blocks_ordered conditions team_indices k teams_per_square square,
       rng')
  end.

(** [main] after argument parsing, with what it writes to standard output:
    the lines printed, or the exception that ended the run before any
    line. *)
Definition main_print (args_teams : Z) (args_conditions : list string)
    (args_seed : option Z) (rng : RandomState)
    : result (list string) * RandomState :=
  let rng0 := match args_seed with
              | Some s => seed s
              | None => rng
              end in
  let '(outcome, rng') :=
    assign_teams_ordered args_teams args_conditions rng0 in
  (match outcome with
   | Ok assignments => Ok (print_line <$> assignments)
   | Raise e => Raise e
   end, rng').
End Printing.

(** ** The metrics relay, [aipm_service.py]

    Times are [datetime] values counted in microseconds, the resolution of
    [datetime] and [timedelta]; [datetime.utcnow()] is an input of the
    handler.  The values of the metrics dictionary are of any type and
    enter the message through their [format], a parameter here. *)

(** [timedelta(seconds=10)] *)
Definition _min_interval : Z := 10 * 1000000.

Section Relay.
Context {V : Type}.
Variable format : V → string.

(** The items of [metrics] come in the dictionary's order. *)
Definition generate_message (metrics : list (string * V)) : string :=
  let summary := join ", " ((λ kv, kv.1 +:+ "=" +:+ format kv.2) <$> metrics) in
  "Received metrics: " +:+ summary.

(** The handler on the global [_last_response_time]: the response
    dictionary and the new value of the global. *)
Definition handle_metrics (now : Z) (payload_data : list (string * V))
    (_last_response_time : option Z) : gmap string string * option Z :=
  match _last_response_time with
  | Some last =>
    if now - last <? _min_interval
    then ({[ "message" := "" ]}, _last_response_time)
    else ({[ "message" := generate_message payload_data ]}, Some now)
  | None => ({[ "message" := generate_message payload_data ]}, Some now)
  end.

(** A run of requests, each with the clock reading the handler takes. *)
Fixpoint serve (requests : list (Z * list (string * V)))
    (_last_response_time : option Z)
    : list (Z * gmap string string) * option Z :=
  match requests with
  | [] => ([], _last_response_time)
  | (now, payload_data) :: rest =>
    let '(response, last') :=
      handle_metrics now payload_data _last_response_time in
    let '(responses, last'') := serve rest last' in
    ((now, response) :: responses, last'')
  end.

(** The clock readings of the requests that were answered with a message. *)
Definition answered (log : list (Z * gmap string string)) : list Z :=
  (filter (λ e, e.2 !! "message" ≠ Some "") log).*1.
End Relay.

(** ** Relating the two dictionary models *)

(** An outcome with the ordered dictionary against one with the mapping:
    the same exception, or the same entries under pairwise distinct keys. *)
Definition refines (r1 : result (list (string * list string)))
    (r2 : result (gmap string (list string))) : Prop :=
  match r1, r2 with
  | Ok items, Ok d => list_to_map items = d ∧ NoDup items.*1
  | Raise e1, Raise e2 => e1 = e2
  | _, _ => False
  end.

(** ** The model on small inputs *)

Example str_examples : str 0 = "0" ∧ str 10 = "10" ∧ str (-3) = "-3".
Proof. by vm_compute. Qed.

Example getitem_examples :
  getitem [10; 20; 30] 2 = Ok 30
  ∧ getitem [10; 20; 30] (-1) = Ok 30
  ∧ getitem [10; 20; 30] 3 = Raise IndexError
  ∧ getitem [10; 20; 30] (-4) = Raise IndexError.
Proof. by vm_compute. Qed.

Example latin_square_3 : latin_square 3 = [[0; 1; 2]; [1; 2; 0]; [2; 0; 1]].
Proof. reflexivity. Qed.

Example latin_square_0 : latin_square 0 = [].
Proof. reflexivity. Qed.

Example assign_teams_single :
  (assign_teams Rotor.shuffle 1 ["OnlyCond"] 0%nat).1
  = Ok {[ "Team 1" := ["OnlyCond"] ]}.
Proof. by vm_compute. Qed.

Example assign_teams_seven_by_three :
  assign_teams Rotor.shuffle 7 ["A"; "B"; "C"] 4%nat
  = (Raise (ValueError
       "Number of teams (7) must be a multiple of the number of conditions (3)."),
     4%nat).
Proof. by vm_compute. Qed.

Example assign_teams_six_by_three :
  ∃ d, (assign_teams Rotor.shuffle 6 ["Control"; "HPM"; "AIPM"] 1%nat).1 = Ok d
    ∧ d !! "Team 2" = Some ["Control"; "HPM"; "AIPM"]
    ∧ d !! "Team 3" = Some ["HPM"; "AIPM"; "Control"]
    ∧ d !! "Team 1" = Some ["AIPM"; "Control"; "HPM"]
    ∧ d !! "Team 7" = None.
Proof. eexists. split; [by vm_compute|]. by vm_compute. Qed.

(** ** Loops and indexing that do not raise *)

Lemma for_each_ok {A S} (body : S → A → result S) (g : S → A → S) l acc :
  (∀ a x, x ∈ l → body a x = Ok (g a x)) →
  for_each body acc l = Ok (foldl g acc l).
Proof.
  revert acc. induction l as [|x l IH]; intros acc Hbody; simpl; [done|].
  rewrite Hbody by left. simpl. apply IH.
  intros a y Hy. apply Hbody. by right.
Qed.

Lemma comprehension_ok {A B} (f : A → result B) (g : A → B) l :
  (∀ x, x ∈ l → f x = Ok (g x)) →
  comprehension f l = Ok (g <$> l).
Proof.
  induction l as [|x l IH]; intros Hf; simpl; [done|].
  rewrite Hf by left. simpl. rewrite IH; [done|].
  intros y Hy. apply Hf. by right.
Qed.

Lemma getitem_ok `{Inhabited A} (l : list A) (i : Z) :
  0 ≤ i < len l → getitem l i = Ok (l !!! Z.to_nat i).
Proof.
  intros Hi. unfold getitem, len in *.
  destruct (Z.ltb_spec i 0); [lia|].
  destruct (Z.leb_spec 0 i); [|lia].
  destruct (Z.ltb_spec i (Z.of_nat (length l))); [|lia]. simpl.
  destruct (lookup_lt_is_Some_2 l (Z.to_nat i)) as [x Hx]; [lia|].
  rewrite Hx. by rewrite (list_lookup_total_correct _ _ _ Hx).
Qed.

Lemma foldl_bind {A B C} (f : A → B → A) (h : C → list B) l a :
  foldl (λ a' c, foldl f a' (h c)) a l = foldl f a (l ≫= h).
Proof.
  revert a. induction l as [|c l IH]; intros a; simpl; [done|].
  by rewrite foldl_app, IH.
Qed.

Lemma zip_fmap_self {A B} (f : A → B) (l : list A) :
  zip l (f <$> l) = (λ x, (x, f x)) <$> l.
Proof. induction l; simpl; [done|]. by f_equal. Qed.

(** ** Ranges *)

Lemma range_len_total `{Inhabited A} (l : list A) :
  (λ i, l !!! Z.to_nat i) <$> range (len l) = l.
Proof.
  unfold range, len. induction l as [|x l IH] using rev_ind; [done|].
  rewrite length_app. simpl.
  replace (Z.of_nat (length l + 1)) with (Z.of_nat (S (length l))) by lia.
  rewrite seqZ_S, fmap_app. simpl. f_equal.
  - etrans; [|exact IH]. apply list_fmap_ext. intros i y Hy.
    apply lookup_seqZ in Hy as [-> Hy]. simpl.
    apply lookup_total_app_l. lia.
  - replace (Z.to_nat (0 + Z.of_nat (length l))) with (length l) by lia.
    by rewrite lookup_total_app_r, Nat.sub_diag by lia.
Qed.

Lemma elem_of_range (n i : Z) : i ∈ range n ↔ 0 ≤ i < n.
Proof. unfold range. rewrite elem_of_seqZ. lia. Qed.

Lemma range_lookup (n i : Z) :
  0 ≤ i < n → range n !! Z.to_nat i = Some i.
Proof.
  intros Hi. unfold range. rewrite lookup_seqZ_lt by lia. f_equal. lia.
Qed.

(** [range(m * k)] read block by block. *)
Lemma range_blocks (m : nat) (k : Z) :
  0 ≤ k →
  range (Z.of_nat m) ≫= (λ b, (λ r, b * k + r) <$> range k)
  = range (Z.of_nat m * k).
Proof.
  intros Hk. unfold range. induction m as [|m IH]; [done|].
  rewrite seqZ_S, bind_app, IH. simpl. rewrite app_nil_r.
  replace (Z.of_nat (S m) * k) with (Z.of_nat m * k + k) by lia.
  rewrite seqZ_app by lia. f_equal.
  replace (0 + Z.of_nat m * k) with (Z.of_nat m * k + 0) by lia.
  rewrite <- fmap_add_seqZ.
  apply list_fmap_ext. intros; lia.
Qed.

(** ** The cyclic shift is a permutation of [range k] *)

Lemma shift_mod_inj (k i a b : Z) :
  0 ≤ a < k → 0 ≤ b < k → (i + a) `mod` k = (i + b) `mod` k → a = b.
Proof.
  intros Ha Hb Heq.
  assert (Hk : k ≠ 0) by lia.
  pose proof (Z.div_mod (i + a) k Hk) as E1.
  pose proof (Z.div_mod (i + b) k Hk) as E2.
  rewrite Heq in E1.
  assert (∃ q, a - b = k * q) as [q E].
  { exists ((i + a) `div` k - (i + b) `div` k). lia. }
  assert (q = 0) by nia. lia.
Qed.

Lemma shift_mod_perm (k i : Z) :
  (λ j, (i + j) `mod` k) <$> range k ≡ₚ range k.
Proof.
  destruct (Z.le_gt_cases k 0) as [Hk|Hk].
  { unfold range. by rewrite seqZ_nil. }
  apply NoDup_Permutation.
  - apply NoDup_fmap_2_strong; [|apply NoDup_seqZ].
    intros a b Ha%elem_of_range Hb%elem_of_range. by apply shift_mod_inj.
  - apply NoDup_seqZ.
  - intros x. rewrite list_elem_of_fmap, elem_of_range. split.
    + intros (j & -> & _). apply Z.mod_pos_bound. lia.
    + intros Hx. exists ((x - i) `mod` k). split.
      * rewrite Zplus_mod_idemp_r.
        replace (i + (x - i)) with x by lia. by rewrite Z.mod_small.
      * apply elem_of_range, Z.mod_pos_bound. lia.
Qed.

(** ** The square *)

Lemma latin_square_length (k : Z) : length (latin_square k) = Z.to_nat k.
Proof. unfold latin_square, range. by rewrite length_fmap, length_seqZ. Qed.

Lemma latin_square_row (k i : Z) :
  0 ≤ i < k →
  latin_square k !! Z.to_nat i = Some ((λ j, (i + j) `mod` k) <$> range k).
Proof.
  intros Hi. unfold latin_square.
  by rewrite list_lookup_fmap, range_lookup.
Qed.

Lemma latin_square_column (k j : Z) :
  0 ≤ j < k →
  column j (latin_square k) = (λ i, (i + j) `mod` k) <$> range k.
Proof.
  intros Hj. unfold column, latin_square.
  rewrite <- list_fmap_compose. apply list_fmap_ext.
  intros n i _. simpl.
  apply list_lookup_total_correct.
  by rewrite list_lookup_fmap, range_lookup.
Qed.

Lemma enumerate_latin_square (k : Z) :
  enumerate (latin_square k)
  = (λ i, (i, (λ j, (i + j) `mod` k) <$> range k)) <$> range k.
Proof.
  unfold enumerate, len. rewrite latin_square_length.
  assert (range (Z.of_nat (Z.to_nat k)) = range k) as ->.
  { unfold range. destruct (Z.le_gt_cases k 0).
    - rewrite !seqZ_nil; [done|lia..].
    - f_equal. lia. }
  apply zip_fmap_self.
Qed.


(** ** Which exceptions the loops can raise *)

Lemma getitem_raise {A} (l : list A) (i : Z) e :
  getitem l i = Raise e → e = IndexError.
Proof.
  unfold getitem. repeat case_match; by intros [=].
Qed.

Lemma comprehension_raise {A B} (f : A → result B) (l : list A) (P : exn → Prop) e :
  (∀ x e', f x = Raise e' → P e') →
  comprehension f l = Raise e → P e.
Proof.
  intros Hf. induction l as [|x l IH]; simpl; [by intros [=]|].
  destruct (f x) as [y|e'] eqn:Hx; simpl.
  - destruct (comprehension f l) as [ys|e'']; simpl; [by intros [=]|].
    intros [= ->]. by apply IH.
  - intros [= ->]. by eapply Hf.
Qed.

Lemma for_each_raise {A S} (body : S → A → result S) (l : list A)
    (P : exn → Prop) acc e :
  (∀ a x e', body a x = Raise e' → P e') →
  for_each body acc l = Raise e → P e.
Proof.
  intros Hbody. revert acc. induction l as [|x l IH]; intros acc; simpl;
    [by intros [=]|].
  destruct (body acc x) as [acc'|e'] eqn:Hx; simpl.
  - apply IH.
  - intros [= ->]. by eapply Hbody.
Qed.

Lemma assign_blocks_raise conditions team_indices k m square e :
  assign_blocks conditions team_indices k m square = Raise e →
  e = IndexError.
Proof.
  unfold assign_blocks.
  apply (for_each_raise _ _ (λ e, e = IndexError)). intros d b e'.
  apply (for_each_raise _ _ (λ e, e = IndexError)).
  intros d' [r row] e''. unfold assign_row. simpl.
  destruct (getitem team_indices (b * k + r)) as [t|e3] eqn:Ht; simpl.
  - destruct (comprehension (getitem conditions) row) as [sq|e4] eqn:Hc;
      simpl; [by intros [=]|].
    intros [= ->]. revert Hc.
    apply (comprehension_raise _ _ (λ e, e = IndexError)).
    intros x e5. apply getitem_raise.
  - intros [= ->]. by eapply getitem_raise.
Qed.

(** ** What the nested loops compute *)

Lemma fmap_bind_blocks {A B C} (F : B → C) (h : A → list B) (l : list A) :
  F <$> (l ≫= h) = l ≫= (λ b, F <$> h b).
Proof.
  induction l as [|a l IH]; simpl; [done|]. rewrite fmap_app. by f_equal.
Qed.

Lemma bind_ext_in {A B} (f g : A → list B) (l : list A) :
  (∀ x, x ∈ l → f x = g x) → l ≫= f = l ≫= g.
Proof.
  induction l as [|a l IH]; intros Hfg; simpl; [done|].
  rewrite Hfg by left. f_equal. apply IH. intros x Hx. apply Hfg. by right.
Qed.

Section Loops.
Variable conditions : list string.
Variable team_indices : list Z.
Let k := len conditions.

Lemma comprehension_row (r : Z) :
  0 < k →
  comprehension (getitem conditions) ((λ j, (r + j) `mod` k) <$> range k)
  = Ok (row_sequence conditions r).
Proof.
  intros Hk. unfold row_sequence. fold k.
  rewrite (comprehension_ok _ (λ col, conditions !!! Z.to_nat col)).
  - by rewrite <- list_fmap_compose.
  - intros col (j & -> & _)%list_elem_of_fmap.
    apply getitem_ok. fold k. apply Z.mod_pos_bound. lia.
Qed.

Lemma assign_row_ok (b r : Z) acc :
  0 < k → 0 ≤ b → 0 ≤ r < k → b * k + r < len team_indices →
  assign_row conditions team_indices k b acc
    (r, (λ j, (r + j) `mod` k) <$> range k)
  = Ok (setitem acc
          (team_name (team_indices !!! Z.to_nat (b * k + r)),
           row_sequence conditions r)).
Proof.
  intros Hk Hb Hr Hlen. unfold assign_row. simpl.
  rewrite getitem_ok by nia. simpl.
  by rewrite comprehension_row.
Qed.

Lemma assign_blocks_ok (m : Z) :
  0 < k → len team_indices = m * k →
  assign_blocks conditions team_indices k m (latin_square k)
  = Ok (foldl setitem ∅ (all_entries conditions team_indices m)).
Proof.
  intros Hk Hlen. unfold assign_blocks, all_entries.
  rewrite (for_each_ok _
    (λ d b, foldl setitem d (block_entries conditions team_indices b))).
  - by rewrite foldl_bind.
  - intros d b Hb%elem_of_range.
    rewrite enumerate_latin_square. unfold block_entries. fold k.
    rewrite (for_each_ok _ (λ d' e, setitem d'
      (team_name (team_indices !!! Z.to_nat (b * k + e.1)),
       row_sequence conditions e.1))).
    + by rewrite <- (foldl_fmap setitem), <- list_fmap_compose.
    + intros d' e (r & -> & Hr%elem_of_range)%list_elem_of_fmap.
      apply assign_row_ok; simpl; [lia..|nia].
Qed.

(** The keys written are the names of the shuffled indices, in order. *)
Lemma all_entries_keys (m : Z) :
  0 ≤ k → len team_indices = m * k →
  (all_entries conditions team_indices m).*1 = team_name <$> team_indices.
Proof.
  intros Hk Hlen. unfold all_entries, block_entries. fold k.
  rewrite fmap_bind_blocks.
  rewrite (bind_ext_in _ (λ b,
    (λ i, team_name (team_indices !!! Z.to_nat i))
      <$> ((λ r, b * k + r) <$> range k))).
  2:{ intros b _. by rewrite <- !list_fmap_compose. }
  rewrite <- fmap_bind_blocks.
  destruct (Z.le_gt_cases m 0) as [Hm|Hm].
  { assert (team_indices = []) as ->.
    { apply nil_length_inv. unfold len in Hlen. nia. }
    unfold range. by rewrite (seqZ_nil 0 m) by lia. }
  rewrite <- (Z2Nat.id m) by lia. rewrite range_blocks by done.
  rewrite Z2Nat.id, <- Hlen by lia.
  transitivity (team_name <$> ((λ i, team_indices !!! Z.to_nat i)
                                 <$> range (len team_indices))).
  - by rewrite <- list_fmap_compose.
  - by rewrite range_len_total.
Qed.

(** The values written are [m] copies of the labelled square rows. *)
Lemma all_entries_values (m : Z) :
  (all_entries conditions team_indices m).*2
  = range m ≫= (λ _, row_sequence conditions <$> range k).
Proof.
  unfold all_entries, block_entries. fold k.
  rewrite fmap_bind_blocks. apply bind_ext_in.
  intros b _. by rewrite <- list_fmap_compose.
Qed.
End Loops.

(** ** Team names and the final dictionary *)

#[global] Instance team_name_inj : Inj (=) (=) team_name.
Proof.
  intros a b Hab. unfold team_name, str in Hab.
  apply (inj (String.app "Team ")) in Hab.
  apply (inj pretty) in Hab. lia.
Qed.

Lemma team_names_from_one (n : Z) :
  team_name <$> range n = (λ i, "Team " +:+ str i) <$> seqZ 1 n.
Proof.
  unfold range. change 1 with (1 + 0) at 1.
  rewrite <- (fmap_add_seqZ 1 0 n), <- list_fmap_compose.
  apply list_fmap_ext. intros _ i _. unfold team_name. simpl.
  by rewrite Z.add_comm.
Qed.

Lemma foldl_setitem (es : list (string * list string)) :
  foldl setitem ∅ es = list_to_map (reverse es).
Proof.
  induction es as [|e es IH] using rev_ind; [done|].
  by rewrite foldl_app, reverse_snoc, IH.
Qed.

(** *** Counting *)

Lemma length_filter_fmap {A B} (P : B → Prop) (Q : A → Prop)
    `{∀ y, Decision (P y)} `{∀ x, Decision (Q x)} (f : A → B) (l : list A) :
  (∀ x, P (f x) ↔ Q x) →
  length (filter P (f <$> l)) = length (filter Q l).
Proof.
  intros HPQ. induction l as [|x l IH]; [done|].
  rewrite fmap_cons, !filter_cons.
  destruct (decide (P (f x))) as [HP|HP], (decide (Q x)) as [HQ|HQ];
    simpl; rewrite ?IH; try done; by apply HPQ in HP || apply HPQ in HQ.
Qed.

Lemma length_filter_fmap_iff {A B C} (P : B → Prop) (Q : C → Prop)
    `{∀ y, Decision (P y)} `{∀ y, Decision (Q y)}
    (f : A → B) (g : A → C) (l : list A) :
  (∀ x, P (f x) ↔ Q (g x)) →
  length (filter P (f <$> l)) = length (filter Q (g <$> l)).
Proof.
  intros HPQ. induction l as [|x l IH]; [done|].
  rewrite !fmap_cons, !filter_cons.
  destruct (decide (P (f x))) as [HP|HP], (decide (Q (g x))) as [HQ|HQ];
    simpl; rewrite ?IH; try done; by apply HPQ in HP || apply HPQ in HQ.
Qed.

Lemma length_filter_perm {A} (P : A → Prop) `{∀ y, Decision (P y)}
    (l1 l2 : list A) :
  l1 ≡ₚ l2 → length (filter P l1) = length (filter P l2).
Proof. intros Hl. by rewrite Hl. Qed.

Lemma length_filter_copies {A B} (P : B → Prop) `{∀ y, Decision (P y)}
    (l : list A) (L : list B) :
  length (filter P (l ≫= λ _, L)) = (length l * length (filter P L))%nat.
Proof.
  induction l as [|x l IH]; [done|].
  simpl. rewrite filter_app, length_app. by f_equal.
Qed.

Lemma occurrences_not_elem c conditions :
  c ∉ conditions → occurrences c conditions = 0%nat.
Proof.
  unfold occurrences. induction conditions as [|x l IH]; [done|].
  intros [Hx Hl]%not_elem_of_cons.
  rewrite filter_cons_False by congruence. by apply IH.
Qed.

Lemma occurrences_NoDup c conditions :
  NoDup conditions → c ∈ conditions → occurrences c conditions = 1%nat.
Proof.
  induction 1 as [|x l Hx Hl IH]; [by inversion 1|].
  intros Hc. unfold occurrences. destruct (decide (x = c)) as [->|Hne].
  - rewrite filter_cons_True by done. simpl. f_equal.
    by apply occurrences_not_elem.
  - rewrite filter_cons_False by done. apply IH.
    apply elem_of_cons in Hc as [->|Hc]; [done|done].
Qed.

(** At a fixed position, the labelled rows of the square list every slot of
    [conditions] once. *)
Lemma rows_at_position conditions (p : Z) (c : string) :
  0 ≤ p < len conditions →
  length (filter (λ s : list string, s !! Z.to_nat p = Some c)
            (row_sequence conditions <$> range (len conditions)))
  = occurrences c conditions.
Proof.
  intros Hp. set (k := len conditions) in *.
  rewrite (length_filter_fmap_iff _ (λ x, x = c) _
    (λ r, conditions !!! Z.to_nat ((r + p) `mod` k))).
  2:{ intros r. unfold row_sequence. fold k.
      rewrite list_lookup_fmap, range_lookup by done. simpl.
      split; [by intros [=]|by intros ->]. }
  unfold occurrences. apply length_filter_perm.
  transitivity ((λ i, conditions !!! Z.to_nat i)
                  <$> ((λ r, (p + r) `mod` k) <$> range k)).
  - rewrite <- list_fmap_compose.
    erewrite list_fmap_ext; [done|].
    intros _ r _. simpl. by rewrite Z.add_comm.
  - rewrite shift_mod_perm. unfold k. by rewrite range_len_total.
Qed.

Lemma final_dict_entries (es : list (string * list string)) :
  NoDup es.*1 → map_to_list (foldl setitem ∅ es) ≡ₚ es.
Proof.
  intros Hnd. rewrite foldl_setitem, map_to_list_to_map.
  - apply reverse_Permutation.
  - by rewrite fmap_reverse, reverse_Permutation.
Qed.

(** ** The assigner on a well-behaved shuffle *)

Lemma assign_teams_checked {RandomState}
    (shuffle : RandomState → list Z → list Z * RandomState)
    (num_teams : Z) (conditions : list string) (rng : RandomState) :
  len conditions ≠ 0 → num_teams `mod` len conditions = 0 →
  assign_teams shuffle num_teams conditions rng
  = (assign_blocks conditions (shuffle rng (range num_teams)).1
       (len conditions) (num_teams `div` len conditions)
       (latin_square (len conditions)),
     (shuffle rng (range num_teams)).2).
Proof.
  intros Hk Hmod. unfold assign_teams, py_mod.
  destruct (Z.eqb_spec (len conditions) 0) as [|_]; [done|].
  rewrite Hmod. simpl. by destruct (shuffle rng (range num_teams)).
Qed.

Lemma assign_teams_rejected {RandomState}
    (shuffle : RandomState → list Z → list Z * RandomState)
    (num_teams : Z) (conditions : list string) (rng : RandomState) :
  len conditions ≠ 0 → num_teams `mod` len conditions ≠ 0 →
  assign_teams shuffle num_teams conditions rng
  = (Raise (ValueError (error_message num_teams (len conditions))), rng).
Proof.
  intros Hk Hmod. unfold assign_teams, py_mod.
  destruct (Z.eqb_spec (len conditions) 0) as [|_]; [done|].
  by destruct (Z.eqb_spec (num_teams `mod` len conditions) 0).
Qed.

Section Correctness.
Context {RandomState : Type}.
Variable shuffle : RandomState → list Z → list Z * RandomState.
(** [random.shuffle] rearranges the list it is given. *)
Hypothesis shuffle_perm : ∀ rng l, (shuffle rng l).1 ≡ₚ l.

Lemma shuffled_len rng n : 0 ≤ n → len (shuffle rng (range n)).1 = n.
Proof.
  intros Hn. unfold len. rewrite shuffle_perm.
  unfold range. rewrite length_seqZ. lia.
Qed.

Lemma assign_teams_entries (num_teams m : Z) conditions rng :
  0 < len conditions → 0 ≤ m → num_teams = m * len conditions →
  ∃ d, assign_teams shuffle num_teams conditions rng
         = (Ok d, (shuffle rng (range num_teams)).2)
    ∧ map_to_list d
        ≡ₚ all_entries conditions (shuffle rng (range num_teams)).1 m
    ∧ (all_entries conditions (shuffle rng (range num_teams)).1 m).*1
        = team_name <$> (shuffle rng (range num_teams)).1.
Proof.
  intros Hk Hm Hn.
  assert (len (shuffle rng (range num_teams)).1 = m * len conditions)
    as Hlen by (rewrite shuffled_len; nia).
  eexists. split; [|split].
  - rewrite assign_teams_checked; [|lia|by rewrite Hn, Z.mod_mul by lia].
    rewrite Hn at 2. rewrite Z.div_mul by lia.
    by rewrite assign_blocks_ok.
  - apply final_dict_entries.
    rewrite all_entries_keys by (done || lia).
    apply NoDup_fmap_2; [apply _|].
    rewrite shuffle_perm. apply NoDup_seqZ.
  - apply all_entries_keys; [lia|done].
Qed.
End Correctness.

(** ** The square is Latin *)

(** C2. For every order [k >= 1], [latin_square k] is a [k]-by-[k] table
    whose cell [(i, j)] is [(i + j) mod k], and each of its rows and each of
    its columns is a permutation of [0, k). *)
Theorem latin_square_valid (k : Z) :
  1 ≤ k →
  len (latin_square k) = k
  ∧ (∀ row, row ∈ latin_square k → len row = k)
  ∧ (∀ i j, 0 ≤ i < k → 0 ≤ j < k →
       ∃ row, getitem (latin_square k) i = Ok row
            ∧ getitem row j = Ok ((i + j) `mod` k))
  ∧ (∀ row, row ∈ latin_square k → row ≡ₚ range k)
  ∧ (∀ j, 0 ≤ j < k → column j (latin_square k) ≡ₚ range k).
Proof.
  intros Hk.
  assert (len (latin_square k) = k) as Hlen.
  { unfold len. rewrite latin_square_length. lia. }
  assert (∀ i, len ((λ j, (i + j) `mod` k) <$> range k) = k) as Hrow.
  { intros i. unfold len, range. rewrite length_fmap, length_seqZ. lia. }
  split; [done|]. split; [|split; [|split]].
  - intros row (i & -> & _)%list_elem_of_fmap. apply Hrow.
  - intros i j Hi Hj. eexists. split.
    + rewrite getitem_ok by lia.
      by rewrite (list_lookup_total_correct _ _ _ (latin_square_row k i Hi)).
    + rewrite getitem_ok by (rewrite Hrow; lia). f_equal.
      apply list_lookup_total_correct.
      by rewrite list_lookup_fmap, range_lookup.
  - intros row (i & -> & _)%list_elem_of_fmap. apply shift_mod_perm.
  - intros j Hj. rewrite latin_square_column by done.
    rewrite <- (shift_mod_perm k j) at 2.
    erewrite list_fmap_ext; [done|].
    intros _ i _. simpl. by rewrite Z.add_comm.
Qed.

Lemma latin_square_valid_witness :
  len (latin_square 3) = 3
  ∧ (∀ row, row ∈ latin_square 3 → len row = 3)
  ∧ (∀ i j, 0 ≤ i < 3 → 0 ≤ j < 3 →
       ∃ row, getitem (latin_square 3) i = Ok row
            ∧ getitem row j = Ok ((i + j) `mod` 3))
  ∧ (∀ row, row ∈ latin_square 3 → row ≡ₚ range 3)
  ∧ (∀ j, 0 ≤ j < 3 → column j (latin_square 3) ≡ₚ range 3).
Proof. apply (latin_square_valid 3). lia. Defined.

(** ** Error paths *)

Section Errors.
Context {RandomState : Type}.
Variable shuffle : RandomState → list Z → list Z * RandomState.

(** C3. With at least one condition, [assign_teams] raises the
    [ValueError] (the InvalidConfiguration failure) exactly when
    [num_teams mod k] is nonzero, and its message spells out both
    [num_teams] and [k]. *)
Theorem assign_teams_rejects_iff (num_teams : Z) (conditions : list string)
    (rng : RandomState) :
  1 ≤ len conditions →
  ((∃ msg, (assign_teams shuffle num_teams conditions rng).1
           = Raise (ValueError msg))
   ↔ num_teams `mod` len conditions ≠ 0)
  ∧ (∀ msg, (assign_teams shuffle num_teams conditions rng).1
            = Raise (ValueError msg) →
       msg = "Number of teams (" +:+ str num_teams +:+
             ") must be a multiple of the number of conditions (" +:+
             str (len conditions) +:+ ").").
Proof.
  intros Hk.
  destruct (decide (num_teams `mod` len conditions = 0)) as [Hmod|Hmod].
  - rewrite assign_teams_checked by (done || lia). simpl. split.
    + split; [|done]. intros [msg Hmsg].
      by apply assign_blocks_raise in Hmsg.
    + intros msg Hmsg. by apply assign_blocks_raise in Hmsg.
  - rewrite assign_teams_rejected by (done || lia). simpl. split.
    + split; [done|]. intros _. by eexists.
    + by intros msg [= <-].
Qed.

(** C8. When [assign_teams] fails with the [ValueError] there is no
    assignment in its outcome and the random source is left in the state
    it was called with: the check runs before the shuffle. *)
Theorem assign_teams_all_or_nothing (num_teams : Z)
    (conditions : list string) (rng : RandomState) msg :
  (assign_teams shuffle num_teams conditions rng).1
    = Raise (ValueError msg) →
  (∀ d, (assign_teams shuffle num_teams conditions rng).1 ≠ Ok d)
  ∧ (assign_teams shuffle num_teams conditions rng).2 = rng.
Proof.
  intros Hfail. split; [intros d Hd; congruence|].
  revert Hfail. unfold assign_teams, py_mod.
  destruct (len conditions =? 0); [done|].
  destruct (num_teams `mod` len conditions =? 0); simpl; [|done].
  destruct (shuffle rng (range num_teams)) as [team_indices rng']. simpl.
  intros Hfail. by apply assign_blocks_raise in Hfail.
Qed.

(** C9. With no condition at all the divisibility test divides by zero:
    whatever [num_teams] is, the outcome is [ZeroDivisionError], not the
    [ValueError], and no assignment is produced. *)
Theorem assign_teams_no_conditions (num_teams : Z) (rng : RandomState) :
  assign_teams shuffle num_teams [] rng = (Raise ZeroDivisionError, rng).
Proof. reflexivity. Qed.

(** C10. With at least one condition, a [num_teams] that is zero or
    negative and divisible by [k] is not rejected: the loops run zero
    times and the empty mapping is returned. *)
Theorem assign_teams_nonpositive (num_teams : Z) (conditions : list string)
    (rng : RandomState) :
  conditions ≠ [] → num_teams ≤ 0 →
  num_teams `mod` len conditions = 0 →
  (assign_teams shuffle num_teams conditions rng).1 = Ok ∅.
Proof.
  intros Hne Hn Hmod.
  assert (0 < len conditions) as Hk.
  { unfold len. destruct conditions; [done|]. simpl. lia. }
  rewrite assign_teams_checked by (done || lia). simpl.
  unfold assign_blocks, range.
  rewrite (seqZ_nil 0 (num_teams `div` len conditions)); [done|].
  apply Z.div_le_upper_bound; lia.
Qed.
End Errors.

(** ** Reproducibility under a seed *)

Lemma assign_blocks_size conditions team_indices (num_teams m : Z) :
  0 < len conditions → 0 ≤ m → num_teams = m * len conditions →
  team_indices ≡ₚ range num_teams →
  ∃ d, assign_blocks conditions team_indices (len conditions) m
         (latin_square (len conditions)) = Ok d
     ∧ size d = Z.to_nat num_teams.
Proof.
  intros Hk Hm Hn Hperm.
  assert (len team_indices = m * len conditions) as Hlen.
  { unfold len at 1. rewrite Hperm. unfold range. rewrite length_seqZ. nia. }
  eexists. split; [by apply assign_blocks_ok|].
  rewrite <- length_map_to_list, <- (length_fmap fst).
  rewrite final_dict_entries.
  - rewrite all_entries_keys by (done || lia).
    rewrite length_fmap, Hperm. unfold range. by rewrite length_seqZ.
  - rewrite all_entries_keys by (done || lia).
    apply NoDup_fmap_2; [apply _|]. rewrite Hperm. apply NoDup_seqZ.
Qed.

(** Against a source given by functions, the runs are the values of
    [assign_teams] and [main]. *)
Lemma assign_teams_run_of_function {RandomState}
    (shuffle : RandomState → list Z → list Z * RandomState)
    num_teams conditions rng outcome rng' :
  assign_teams_run (shuffles_of shuffle) num_teams conditions rng outcome rng'
  ↔ assign_teams shuffle num_teams conditions rng = (outcome, rng').
Proof.
  unfold assign_teams, shuffles_of. split.
  - intros [e He|r Hr Hne|r team_indices rng1 Hr -> Hs]; rewrite ?He, ?Hr.
    + done.
    + by destruct (Z.eqb_spec r 0).
    + simpl. by rewrite Hs.
  - destruct (py_mod num_teams (len conditions)) as [r|e] eqn:Hmod.
    + destruct (Z.eqb_spec r 0) as [->|Hne]; simpl.
      * destruct (shuffle rng (range num_teams)) as [team_indices rng1]
          eqn:Hs.
        intros [= <- <-]. by eapply run_assigned.
      * intros [= <- <-]. by eapply run_rejected.
    + intros [= <- <-]. by apply run_mod_raises.
Qed.

Lemma main_run_of_function {RandomState}
    (shuffle : RandomState → list Z → list Z * RandomState)
    (seed : Z → RandomState)
    args_teams args_conditions args_seed rng outcome rng' :
  main_run (shuffles_of shuffle) (seeds_of seed) args_teams args_conditions
    args_seed rng outcome rng'
  ↔ main shuffle seed args_teams args_conditions args_seed rng
    = (outcome, rng').
Proof.
  unfold main, seeds_of. split.
  - intros [s rng0 out rng1 -> -> Hrun|out rng1 -> Hrun];
      by apply assign_teams_run_of_function.
  - intros Hmain. apply assign_teams_run_of_function in Hmain.
    destruct args_seed as [s|].
    + by eapply main_run_seeded.
    + by eapply main_run_unseeded.
Qed.

Section Reproducible.
Context {RandomState : Type}.
Variable shuffles : RandomState → list Z → list Z → RandomState → Prop.
Variable seeds : Z → RandomState → RandomState → Prop.
(** Both calls return, whatever the state. *)
Hypothesis shuffles_total : ∀ rng l, ∃ l' rng', shuffles rng l l' rng'.
Hypothesis seeds_total : ∀ s rng, ∃ rng', seeds s rng rng'.
(** A shuffle rearranges its list, and in one state it has one result. *)
Hypothesis shuffles_perm : ∀ rng l l' rng', shuffles rng l l' rng' → l' ≡ₚ l.
Hypothesis shuffles_functional : ∀ rng l l1 rng1 l2 rng2,
  shuffles rng l l1 rng1 → shuffles rng l l2 rng2 → l1 = l2 ∧ rng1 = rng2.
(** Seeding forgets the state it finds. *)
Hypothesis seeds_functional : ∀ s rng1 rng1' rng2 rng2',
  seeds s rng1 rng1' → seeds s rng2 rng2' → rng1' = rng2'.

Lemma assign_teams_run_unique (num_teams m : Z) conditions rng :
  1 ≤ len conditions → 0 < m → num_teams = m * len conditions →
  ∃ d rng_end,
    assign_teams_run shuffles num_teams conditions rng (Ok d) rng_end
    ∧ size d = Z.to_nat num_teams
    ∧ ∀ outcome rng_end',
        assign_teams_run shuffles num_teams conditions rng outcome rng_end' →
        outcome = Ok d ∧ rng_end' = rng_end.
Proof.
  intros Hk Hm Hn.
  assert (py_mod num_teams (len conditions) = Ok 0) as Hmod.
  { unfold py_mod. destruct (Z.eqb_spec (len conditions) 0); [lia|].
    by rewrite Hn, Z.mod_mul by lia. }
  assert (num_teams `div` len conditions = m) as Hdiv
    by (rewrite Hn; apply Z.div_mul; lia).
  destruct (shuffles_total rng (range num_teams))
    as (team_indices & rng_end & Hshuffle).
  destruct (assign_blocks_size conditions team_indices num_teams m)
    as (d & Hd & Hsize); [lia|lia|done|by eapply shuffles_perm|].
  exists d, rng_end. split; [|split; [done|]].
  - rewrite <- Hd, <- Hdiv. by eapply run_assigned.
  - intros outcome rng_end' Hrun.
    destruct Hrun as [e He|r Hr Hne|r team_indices' rng1 Hr -> Hs].
    + by rewrite Hmod in He.
    + rewrite Hmod in Hr. injection Hr as <-. done.
    + destruct (shuffles_functional _ _ _ _ _ _ Hshuffle Hs) as [<- <-].
      by rewrite Hdiv, Hd.
Qed.

(** C6. On a valid input, [main] run with [--seed s] produces an
    Assignment that depends on the seed and the inputs only: a seeded run
    exists from any state of the random source, and every seeded run, from
    whatever state, returns the same mapping of all [num_teams] teams and
    leaves the random source in the same state.  Likewise any two runs of
    [assign_teams] started in one state return the same mapping.  The
    random source is only asked to answer the same call in the same state
    in the same way, and to forget its state when seeded. *)
Theorem seeded_runs_agree (num_teams m s : Z) (conditions : list string)
    (rng1 : RandomState) :
  1 ≤ len conditions → 0 < m → num_teams = m * len conditions →
  (∃ d rng_end,
     main_run shuffles seeds num_teams conditions (Some s) rng1 (Ok d) rng_end
     ∧ size d = Z.to_nat num_teams
     ∧ ∀ rng2 outcome rng_end',
         main_run shuffles seeds num_teams conditions (Some s) rng2
           outcome rng_end' →
         outcome = Ok d ∧ rng_end' = rng_end)
  ∧ (∀ outcome1 rng_end1 outcome2 rng_end2,
       assign_teams_run shuffles num_teams conditions rng1 outcome1 rng_end1 →
       assign_teams_run shuffles num_teams conditions rng1 outcome2 rng_end2 →
       outcome1 = outcome2 ∧ rng_end1 = rng_end2
       ∧ ∃ d, outcome1 = Ok d ∧ size d = Z.to_nat num_teams).
Proof.
  intros Hk Hm Hn. split.
  - destruct (seeds_total s rng1) as [rng0 Hseed].
    destruct (assign_teams_run_unique num_teams m conditions rng0)
      as (d & rng_end & Hrun & Hsize & Hunique); [done..|].
    exists d, rng_end. split; [by eapply main_run_seeded|]. split; [done|].
    intros rng2 outcome rng_end' Hmain.
    destruct Hmain as [s' rng0' out rng1' [= <-] Hseed' Hrun'|out rng1' [=] _].
    rewrite <- (seeds_functional _ _ _ _ _ Hseed Hseed') in Hrun'.
    by apply Hunique.
  - intros outcome1 rng_end1 outcome2 rng_end2 Hrun1 Hrun2.
    destruct (assign_teams_run_unique num_teams m conditions rng1)
      as (d & rng_end & _ & Hsize & Hunique); [done..|].
    destruct (Hunique _ _ Hrun1) as [-> ->].
    destruct (Hunique _ _ Hrun2) as [-> ->].
    split; [done|]. split; [done|]. by exists d.
Qed.
End Reproducible.

(** ** Successful runs *)

Lemma Rotor_shuffle_perm (s : nat) (l : list Z) : (Rotor.shuffle s l).1 ≡ₚ l.
Proof.
  unfold Rotor.shuffle, rotate. simpl.
  rewrite Permutation_app_comm. by rewrite take_drop.
Qed.

Lemma row_sequence_labels conditions (r : Z) :
  0 < len conditions →
  len (row_sequence conditions r) = len conditions
  ∧ ∀ c, c ∈ row_sequence conditions r → c ∈ conditions.
Proof.
  intros Hk. unfold row_sequence. split.
  - unfold len at 1, range. rewrite length_fmap, length_seqZ. unfold len. lia.
  - intros c (j & -> & _)%list_elem_of_fmap.
    apply list_elem_of_lookup_total_2.
    pose proof (Z.mod_pos_bound (r + j) (len conditions) Hk).
    unfold len in *. lia.
Qed.

Lemma row_sequence_square conditions (r : Z) :
  0 ≤ r < len conditions →
  getitem (latin_square (len conditions)) r
  = Ok ((λ j, (r + j) `mod` len conditions) <$> range (len conditions))
  ∧ row_sequence conditions r
    = (λ col, conditions !!! Z.to_nat col)
        <$> ((λ j, (r + j) `mod` len conditions) <$> range (len conditions)).
Proof.
  intros Hr. split.
  - rewrite getitem_ok.
    + by rewrite (list_lookup_total_correct _ _ _ (latin_square_row _ r Hr)).
    + unfold len in *. rewrite latin_square_length. lia.
  - unfold row_sequence. by rewrite <- list_fmap_compose.
Qed.

Section Claims.
Context {RandomState : Type}.
Variable shuffle : RandomState → list Z → list Z * RandomState.
Hypothesis shuffle_perm : ∀ rng l, (shuffle rng l).1 ≡ₚ l.

(** C4. On a valid input ([num_teams = m * k] with [m >= 1], [k >= 1]) the
    returned mapping has [num_teams] entries, its keys are the names
    [Team 1] to [Team num_teams], each once, and every value is a list of
    [k] labels taken from [conditions]. *)
Theorem assign_teams_complete (num_teams m : Z) (conditions : list string)
    (rng : RandomState) :
  1 ≤ len conditions → 0 < m → num_teams = m * len conditions →
  ∃ d, (assign_teams shuffle num_teams conditions rng).1 = Ok d
    ∧ size d = Z.to_nat num_teams
    ∧ (map_to_list d).*1 ≡ₚ (λ i, "Team " +:+ str i) <$> seqZ 1 num_teams
    ∧ NoDup ((λ i, "Team " +:+ str i) <$> seqZ 1 num_teams)
    ∧ (∀ name, is_Some (d !! name)
               ↔ ∃ i, 1 ≤ i ≤ num_teams ∧ name = "Team " +:+ str i)
    ∧ (∀ name sequence, d !! name = Some sequence →
         len sequence = len conditions
         ∧ ∀ c, c ∈ sequence → c ∈ conditions).
Proof.
  intros Hk Hm Hn.
  destruct (assign_teams_entries shuffle shuffle_perm num_teams m
              conditions rng) as (d & Hrun & Hentries & Hkeys);
    [lia..|done|].
  assert ((map_to_list d).*1
            ≡ₚ (λ i, "Team " +:+ str i) <$> seqZ 1 num_teams) as Hnames.
  { rewrite Hentries, Hkeys, shuffle_perm. by rewrite team_names_from_one. }
  exists d. rewrite Hrun. simpl. split; [done|]. split; [|split; [done|]].
  { rewrite <- length_map_to_list, <- (length_fmap fst), Hnames.
    by rewrite length_fmap, length_seqZ. }
  split; [|split].
  - rewrite <- team_names_from_one.
    apply NoDup_fmap_2; [apply _|apply NoDup_seqZ].
  - intros name. transitivity (name ∈ (map_to_list d).*1).
    + rewrite list_elem_of_fmap. split.
      * intros [v Hv]. exists (name, v). by rewrite elem_of_map_to_list.
      * intros ([name' v] & -> & Hv). exists v.
        by apply elem_of_map_to_list.
    + rewrite Hnames, list_elem_of_fmap. split.
      * intros (i & -> & Hi%elem_of_seqZ). exists i. split; [lia|done].
      * intros (i & Hi & ->). exists i. split; [done|].
        apply elem_of_seqZ. lia.
  - intros name sequence Hlookup.
    assert (sequence ∈ (all_entries conditions
              (shuffle rng (range num_teams)).1 m).*2) as Hseq.
    { rewrite <- Hentries. apply list_elem_of_fmap.
      exists (name, sequence). by rewrite elem_of_map_to_list. }
    rewrite all_entries_values in Hseq.
    apply list_elem_of_bind in Hseq as (b & Hseq & _).
    apply list_elem_of_fmap in Hseq as (r & -> & _).
    apply row_sequence_labels. lia.
Qed.

(** C5. On a valid input, the team found at shuffled position
    [b * k + r] (block [b], row [r]) gets the labels of square row [r],
    [conditions[square[r][0]], ..., conditions[square[r][k-1]]], filed
    under the name made of its own index plus one. *)
Theorem assign_teams_block_row (num_teams m : Z) (conditions : list string)
    (rng : RandomState) :
  1 ≤ len conditions → 0 < m → num_teams = m * len conditions →
  ∃ d, (assign_teams shuffle num_teams conditions rng).1 = Ok d
    ∧ ∀ b r, 0 ≤ b < num_teams `div` len conditions →
             0 ≤ r < len conditions →
        ∃ team_no row,
          getitem (shuffle rng (range num_teams)).1 (b * len conditions + r)
            = Ok team_no
          ∧ 0 ≤ team_no < num_teams
          ∧ getitem (latin_square (len conditions)) r = Ok row
          ∧ comprehension (getitem conditions) row
            = Ok ((λ col, conditions !!! Z.to_nat col) <$> row)
          ∧ d !! ("Team " +:+ str (team_no + 1))
            = Some ((λ col, conditions !!! Z.to_nat col) <$> row).
Proof.
  intros Hk Hm Hn.
  destruct (assign_teams_entries shuffle shuffle_perm num_teams m
              conditions rng) as (d & Hrun & Hentries & Hkeys);
    [lia..|done|].
  exists d. rewrite Hrun. split; [done|]. intros b r Hb Hr.
  rewrite Hn, Z.div_mul in Hb by lia.
  set (sigma := (shuffle rng (range num_teams)).1) in *.
  assert (len sigma = num_teams) as Hlen
    by (apply (shuffled_len shuffle shuffle_perm); nia).
  destruct (row_sequence_square conditions r Hr) as [Hrow Hseq].
  exists (sigma !!! Z.to_nat (b * len conditions + r)). eexists.
  split; [apply getitem_ok; nia|]. split; [|split; [exact Hrow|split]].
  - assert (∀ t, t ∈ sigma → 0 ≤ t < num_teams) as Hbound.
    { intros t Ht. unfold sigma in Ht. rewrite shuffle_perm in Ht.
      by apply elem_of_range in Ht. }
    apply Hbound, list_elem_of_lookup_total_2. unfold len in *. nia.
  - rewrite <- Hseq. apply comprehension_row. lia.
  - rewrite <- Hseq. apply elem_of_map_to_list. rewrite Hentries.
    unfold all_entries. apply list_elem_of_bind. exists b.
    split; [|by apply elem_of_range].
    unfold block_entries. apply list_elem_of_fmap. exists r.
    split; [done|by apply elem_of_range].
Qed.

(** C1, as the code has it. On a valid input with [num_teams = m * k],
    at every position [p] in [0, k) the number of teams holding label [c]
    is [m] times the number of slots of [conditions] labelled [c]; it is
    exactly [m] for a label of a duplicate-free [conditions]. *)
Theorem assign_teams_balanced (num_teams m : Z) (conditions : list string)
    (rng : RandomState) :
  1 ≤ len conditions → 0 < m → num_teams = m * len conditions →
  ∃ d, (assign_teams shuffle num_teams conditions rng).1 = Ok d
    ∧ ∀ p c, 0 ≤ p < len conditions →
        teams_with d p c = (Z.to_nat m * occurrences c conditions)%nat
        ∧ (NoDup conditions → c ∈ conditions →
           teams_with d p c = Z.to_nat m).
Proof.
  intros Hk Hm Hn.
  destruct (assign_teams_entries shuffle shuffle_perm num_teams m
              conditions rng) as (d & Hrun & Hentries & Hkeys);
    [lia..|done|].
  exists d. rewrite Hrun. split; [done|]. intros p c Hp.
  assert (teams_with d p c = (Z.to_nat m * occurrences c conditions)%nat)
    as Hcount.
  { unfold teams_with.
    etrans; [symmetry; apply (length_filter_fmap
      (λ s : list string, s !! Z.to_nat p = Some c) _ snd); done|].
    etrans; [apply length_filter_perm, (fmap_Permutation snd), Hentries|].
    rewrite all_entries_values, length_filter_copies.
    rewrite rows_at_position by done.
    unfold range. by rewrite length_seqZ. }
  split; [done|]. intros Hnd Hc.
  rewrite Hcount, occurrences_NoDup by done. lia.
Qed.
End Claims.

(** C7. The shuffle only decides which team name gets which sequence. For
    two runs on the same valid input, whatever permutations their shuffles
    produce, the two mappings hold the same sequences with the same
    multiplicities, hence the same count of every label at every
    position. *)
Theorem shuffle_keeps_sequences {RandomState1 RandomState2 : Type}
    (shuffle1 : RandomState1 → list Z → list Z * RandomState1)
    (shuffle2 : RandomState2 → list Z → list Z * RandomState2)
    (num_teams m : Z) (conditions : list string)
    (rng1 : RandomState1) (rng2 : RandomState2) :
  (∀ rng l, (shuffle1 rng l).1 ≡ₚ l) →
  (∀ rng l, (shuffle2 rng l).1 ≡ₚ l) →
  1 ≤ len conditions → 0 < m → num_teams = m * len conditions →
  ∃ d1 d2,
    (assign_teams shuffle1 num_teams conditions rng1).1 = Ok d1
    ∧ (assign_teams shuffle2 num_teams conditions rng2).1 = Ok d2
    ∧ (map_to_list d1).*2 ≡ₚ (map_to_list d2).*2
    ∧ ∀ p c, teams_with d1 p c = teams_with d2 p c.
Proof.
  intros Hperm1 Hperm2 Hk Hm Hn.
  destruct (assign_teams_entries shuffle1 Hperm1 num_teams m conditions rng1)
    as (d1 & Hrun1 & Hentries1 & _); [lia..|done|].
  destruct (assign_teams_entries shuffle2 Hperm2 num_teams m conditions rng2)
    as (d2 & Hrun2 & Hentries2 & _); [lia..|done|].
  exists d1, d2. rewrite Hrun1, Hrun2.
  assert ((map_to_list d1).*2 ≡ₚ (map_to_list d2).*2) as Hvalues.
  { by rewrite Hentries1, Hentries2, !all_entries_values. }
  repeat split; [done|]. intros p c. unfold teams_with.
  etrans; [symmetry; apply (length_filter_fmap
    (λ s : list string, s !! Z.to_nat p = Some c) _ snd); done|].
  etrans; [apply length_filter_perm, Hvalues|].
  by apply length_filter_fmap.
Qed.

(** ** The theorems at concrete inputs *)

Lemma Rotor_runs :
  (∀ rng l, ∃ l' rng', shuffles_of Rotor.shuffle rng l l' rng')
  ∧ (∀ s rng, ∃ rng', seeds_of Rotor.seed s rng rng')
  ∧ (∀ rng l l' rng', shuffles_of Rotor.shuffle rng l l' rng' → l' ≡ₚ l)
  ∧ (∀ rng l l1 rng1 l2 rng2,
       shuffles_of Rotor.shuffle rng l l1 rng1 →
       shuffles_of Rotor.shuffle rng l l2 rng2 → l1 = l2 ∧ rng1 = rng2)
  ∧ (∀ s rng1 rng1' rng2 rng2',
       seeds_of Rotor.seed s rng1 rng1' → seeds_of Rotor.seed s rng2 rng2' →
       rng1' = rng2').
Proof.
  unfold shuffles_of, seeds_of. repeat split.
  - intros rng l. by eexists _, _.
  - intros s rng. by eexists.
  - intros rng l l' rng' Hs.
    pose proof (Rotor_shuffle_perm rng l) as Hp. by rewrite Hs in Hp.
  - congruence.
  - congruence.
  - congruence.
Qed.

Lemma seeded_runs_agree_witness :
  (∃ d rng_end,
     main_run (shuffles_of Rotor.shuffle) (seeds_of Rotor.seed) 6
       ["Control"; "HPM"; "AIPM"] (Some 1) 0%nat (Ok d) rng_end
     ∧ size d = Z.to_nat 6
     ∧ ∀ rng2 outcome rng_end',
         main_run (shuffles_of Rotor.shuffle) (seeds_of Rotor.seed) 6
           ["Control"; "HPM"; "AIPM"] (Some 1) rng2 outcome rng_end' →
         outcome = Ok d ∧ rng_end' = rng_end)
  ∧ (∀ outcome1 rng_end1 outcome2 rng_end2,
       assign_teams_run (shuffles_of Rotor.shuffle) 6
         ["Control"; "HPM"; "AIPM"] 0%nat outcome1 rng_end1 →
       assign_teams_run (shuffles_of Rotor.shuffle) 6
         ["Control"; "HPM"; "AIPM"] 0%nat outcome2 rng_end2 →
       outcome1 = outcome2 ∧ rng_end1 = rng_end2
       ∧ ∃ d, outcome1 = Ok d ∧ size d = Z.to_nat 6).
Proof.
  apply (seeded_runs_agree (shuffles_of Rotor.shuffle) (seeds_of Rotor.seed)
           (proj1 Rotor_runs) (proj1 (proj2 Rotor_runs))
           (proj1 (proj2 (proj2 Rotor_runs)))
           (proj1 (proj2 (proj2 (proj2 Rotor_runs))))
           (proj2 (proj2 (proj2 (proj2 Rotor_runs))))
           6 2 1 ["Control"; "HPM"; "AIPM"] 0%nat).
  - vm_compute. discriminate.
  - lia.
  - reflexivity.
Defined.

Example seeded_run_from_two_states :
  main_run (shuffles_of Rotor.shuffle) (seeds_of Rotor.seed) 3
    ["A"; "B"; "C"] (Some 1) 0%nat
    (Ok (<["Team 1" := ["C"; "A"; "B"]]>
           (<["Team 3" := ["B"; "C"; "A"]]> {[ "Team 2" := ["A"; "B"; "C"] ]})))
    2%nat
  ∧ main_run (shuffles_of Rotor.shuffle) (seeds_of Rotor.seed) 3
      ["A"; "B"; "C"] (Some 1) 7%nat
      (Ok (<["Team 1" := ["C"; "A"; "B"]]>
             (<["Team 3" := ["B"; "C"; "A"]]> {[ "Team 2" := ["A"; "B"; "C"] ]})))
      2%nat.
Proof. split; by apply main_run_of_function; vm_compute. Qed.

Lemma assign_teams_rejects_iff_witness :
  ((∃ msg, (assign_teams Rotor.shuffle 7 ["A"; "B"; "C"] 0%nat).1
           = Raise (ValueError msg))
   ↔ 7 `mod` len ["A"; "B"; "C"] ≠ 0)
  ∧ (∀ msg, (assign_teams Rotor.shuffle 7 ["A"; "B"; "C"] 0%nat).1
            = Raise (ValueError msg) →
       msg = "Number of teams (" +:+ str 7 +:+
             ") must be a multiple of the number of conditions (" +:+
             str (len ["A"; "B"; "C"]) +:+ ").").
Proof.
  apply (assign_teams_rejects_iff Rotor.shuffle 7 ["A"; "B"; "C"] 0%nat).
  vm_compute. discriminate.
Defined.

Lemma assign_teams_all_or_nothing_witness :
  (∀ d, (assign_teams Rotor.shuffle 7 ["A"; "B"; "C"] 5%nat).1 ≠ Ok d)
  ∧ (assign_teams Rotor.shuffle 7 ["A"; "B"; "C"] 5%nat).2 = 5%nat.
Proof.
  apply (assign_teams_all_or_nothing Rotor.shuffle 7 ["A"; "B"; "C"] 5%nat
    "Number of teams (7) must be a multiple of the number of conditions (3).").
  vm_compute. reflexivity.
Defined.

Lemma assign_teams_nonpositive_witness :
  (assign_teams Rotor.shuffle (-3) ["A"; "B"; "C"] 0%nat).1 = Ok ∅.
Proof.
  apply (assign_teams_nonpositive Rotor.shuffle (-3) ["A"; "B"; "C"] 0%nat).
  - discriminate.
  - lia.
  - reflexivity.
Defined.

Lemma assign_teams_complete_witness :
  ∃ d, (assign_teams Rotor.shuffle 6 ["Control"; "HPM"; "AIPM"] 1%nat).1
       = Ok d
    ∧ size d = Z.to_nat 6
    ∧ (map_to_list d).*1 ≡ₚ (λ i, "Team " +:+ str i) <$> seqZ 1 6
    ∧ NoDup ((λ i, "Team " +:+ str i) <$> seqZ 1 6)
    ∧ (∀ name, is_Some (d !! name)
               ↔ ∃ i, 1 ≤ i ≤ 6 ∧ name = "Team " +:+ str i)
    ∧ (∀ name sequence, d !! name = Some sequence →
         len sequence = len ["Control"; "HPM"; "AIPM"]
         ∧ ∀ c, c ∈ sequence → c ∈ ["Control"; "HPM"; "AIPM"]).
Proof.
  apply (assign_teams_complete Rotor.shuffle Rotor_shuffle_perm 6 2
           ["Control"; "HPM"; "AIPM"] 1%nat).
  - vm_compute. discriminate.
  - lia.
  - reflexivity.
Defined.

Lemma assign_teams_block_row_witness :
  ∃ d, (assign_teams Rotor.shuffle 6 ["Control"; "HPM"; "AIPM"] 1%nat).1
       = Ok d
    ∧ ∀ b r, 0 ≤ b < 6 `div` len ["Control"; "HPM"; "AIPM"] →
             0 ≤ r < len ["Control"; "HPM"; "AIPM"] →
        ∃ team_no row,
          getitem (Rotor.shuffle 1%nat (range 6)).1
                  (b * len ["Control"; "HPM"; "AIPM"] + r) = Ok team_no
          ∧ 0 ≤ team_no < 6
          ∧ getitem (latin_square (len ["Control"; "HPM"; "AIPM"])) r = Ok row
          ∧ comprehension (getitem ["Control"; "HPM"; "AIPM"]) row
            = Ok ((λ col, ["Control"; "HPM"; "AIPM"] !!! Z.to_nat col)
                    <$> row)
          ∧ d !! ("Team " +:+ str (team_no + 1))
            = Some ((λ col, ["Control"; "HPM"; "AIPM"] !!! Z.to_nat col)
                      <$> row).
Proof.
  apply (assign_teams_block_row Rotor.shuffle Rotor_shuffle_perm 6 2
           ["Control"; "HPM"; "AIPM"] 1%nat).
  - vm_compute. discriminate.
  - lia.
  - reflexivity.
Defined.

Lemma assign_teams_balanced_witness :
  ∃ d, (assign_teams Rotor.shuffle 6 ["Control"; "HPM"; "AIPM"] 1%nat).1
       = Ok d
    ∧ ∀ p c, 0 ≤ p < len ["Control"; "HPM"; "AIPM"] →
        teams_with d p c
        = (Z.to_nat 2 * occurrences c ["Control"; "HPM"; "AIPM"])%nat
        ∧ (NoDup ["Control"; "HPM"; "AIPM"] →
           c ∈ ["Control"; "HPM"; "AIPM"] →
           teams_with d p c = Z.to_nat 2).
Proof.
  apply (assign_teams_balanced Rotor.shuffle Rotor_shuffle_perm 6 2
           ["Control"; "HPM"; "AIPM"] 1%nat).
  - vm_compute. discriminate.
  - lia.
  - reflexivity.
Defined.

Lemma shuffle_keeps_sequences_witness :
  ∃ d1 d2,
    (assign_teams Rotor.shuffle 6 ["Control"; "HPM"; "AIPM"] 1%nat).1 = Ok d1
    ∧ (assign_teams Rotor.shuffle 6 ["Control"; "HPM"; "AIPM"] 2%nat).1
      = Ok d2
    ∧ (map_to_list d1).*2 ≡ₚ (map_to_list d2).*2
    ∧ ∀ p c, teams_with d1 p c = teams_with d2 p c.
Proof.
  apply (shuffle_keeps_sequences Rotor.shuffle Rotor.shuffle 6 2
           ["Control"; "HPM"; "AIPM"] 1%nat 2%nat).
  - apply Rotor_shuffle_perm.
  - apply Rotor_shuffle_perm.
  - vm_compute. discriminate.
  - lia.
  - reflexivity.
Defined.

(** C1 as stated fails when a label is repeated: with
    [conditions = ["A"; "A"]] and two teams ([m = 1]), both teams hold
    ["A"] at position 0. *)
Lemma balance_fails_on_repeated_label :
  1 ≤ len ["A"; "A"]
  ∧ 2 = 1 * len ["A"; "A"]
  ∧ 0 ≤ 0 < len ["A"; "A"]
  ∧ "A" ∈ ["A"; "A"]
  ∧ ∃ d, (assign_teams Rotor.shuffle 2 ["A"; "A"] 0%nat).1 = Ok d
       ∧ teams_with d 0 "A" = 2%nat
       ∧ teams_with d 0 "A" ≠ Z.to_nat 1.
Proof.
  split; [by vm_compute|]. split; [done|]. split; [by vm_compute|].
  split; [by left|].
  eexists. split; [vm_compute; reflexivity|].
  split; [by vm_compute|]. by vm_compute.
Qed.

(** * Further properties of the assigner *)

(** ** The square never divides by zero and is cyclic *)

(** X1. [latin_square] raises nothing, whatever its argument: written with
    the modulus that raises on a zero divisor, it still returns the table
    of the pure definition, because the modulus is only reached for
    [n >= 1]; for [n <= 0] the table is empty. *)
Theorem latin_square_never_raises (n : Z) :
  latin_square_checked n = Ok (latin_square n)
  ∧ (n ≤ 0 → latin_square n = []).
Proof.
  split.
  - unfold latin_square_checked, latin_square.
    apply comprehension_ok. intros i Hi%elem_of_range.
    apply comprehension_ok. intros j _. unfold py_mod.
    by destruct (Z.eqb_spec n 0); [lia|].
  - intros Hn. unfold latin_square, range. by rewrite seqZ_nil.
Qed.

Lemma shift_mod_rotate (k i : Z) :
  0 ≤ i →
  (λ j, (i + j) `mod` k) <$> range k = rotate (Z.to_nat i) (range k).
Proof.
  intros Hi. apply list_eq. intros n. unfold range.
  destruct (decide (Z.of_nat n < k)) as [Hn|Hn].
  - rewrite list_lookup_fmap, lookup_seqZ_lt by done. simpl.
    rewrite lookup_rotate_r by (rewrite length_seqZ; lia).
    rewrite length_seqZ. unfold rotate_nat_add.
    rewrite !Z2Nat.id by lia.
    pose proof (Z.mod_pos_bound (i + Z.of_nat n) k ltac:(lia)).
    rewrite lookup_seqZ_lt, Z.add_0_l by lia. f_equal. lia.
  - rewrite list_lookup_fmap, lookup_seqZ_ge by lia. simpl.
    symmetry. apply lookup_ge_None_2.
    rewrite length_rotate, length_seqZ. lia.
Qed.

Lemma row_sequence_rotate conditions (r : Z) :
  0 ≤ r → row_sequence conditions r = rotate (Z.to_nat r) conditions.
Proof.
  intros Hr. unfold row_sequence.
  transitivity ((λ c, conditions !!! Z.to_nat c)
                  <$> ((λ j, (r + j) `mod` len conditions)
                         <$> range (len conditions)));
    [by rewrite <- list_fmap_compose|].
  rewrite shift_mod_rotate by done.
  apply list_eq. intros n. unfold range, len.
  destruct (decide (n < length conditions)%nat) as [Hn|Hn].
  - rewrite list_lookup_fmap, !lookup_rotate_r
      by (rewrite ?length_seqZ; lia).
    rewrite length_seqZ, Nat2Z.id.
    pose proof (rotate_nat_add_lt (Z.to_nat r) n (length conditions)
                  ltac:(lia)) as Hlt.
    rewrite lookup_seqZ_lt by lia. simpl. rewrite Z.add_0_l, Nat2Z.id.
    destruct (lookup_lt_is_Some_2 conditions _ Hlt) as [c Hc].
    by rewrite Hc, (list_lookup_total_correct _ _ _ Hc).
  - rewrite (lookup_ge_None_2 (rotate _ conditions))
      by (rewrite length_rotate; lia).
    apply lookup_ge_None_2.
    rewrite length_fmap, length_rotate, length_seqZ. lia.
Qed.

(** X2. The square is cyclic: for [0 <= i < k], row [i] of
    [latin_square k] is [0, 1, ..., k-1] rotated left by [i] places, and
    the table is symmetric. *)
Theorem latin_square_cyclic (k i : Z) :
  0 ≤ i < k →
  getitem (latin_square k) i = Ok (rotate (Z.to_nat i) (range k))
  ∧ ∀ j, 0 ≤ j < k →
      latin_square k !! Z.to_nat i ≫= (.!! Z.to_nat j)
      = latin_square k !! Z.to_nat j ≫= (.!! Z.to_nat i).
Proof.
  intros Hi. split.
  - rewrite getitem_ok by (unfold len; rewrite latin_square_length; lia).
    f_equal. apply list_lookup_total_correct.
    rewrite latin_square_row by done. by rewrite shift_mod_rotate by lia.
  - intros j Hj. rewrite !latin_square_row by done. simpl.
    rewrite !list_lookup_fmap, !range_lookup by done. simpl.
    by rewrite Z.add_comm.
Qed.

Lemma latin_square_cyclic_witness :
  getitem (latin_square 4) 1 = Ok (rotate (Z.to_nat 1) (range 4))
  ∧ ∀ j, 0 ≤ j < 4 →
      latin_square 4 !! Z.to_nat 1 ≫= (.!! Z.to_nat j)
      = latin_square 4 !! Z.to_nat j ≫= (.!! Z.to_nat 1).
Proof. apply (latin_square_cyclic 4 1). lia. Defined.

(** ** What every team receives *)

Section Sequences.
Context {RandomState : Type}.
Variable shuffle : RandomState → list Z → list Z * RandomState.
Hypothesis shuffle_perm : ∀ rng l, (shuffle rng l).1 ≡ₚ l.

(** The lookups of the returned mapping, read off the entries written. *)
Lemma assign_teams_lookup (num_teams m : Z) conditions rng :
  0 < len conditions → 0 < m → num_teams = m * len conditions →
  ∃ d, (assign_teams shuffle num_teams conditions rng).1 = Ok d
    ∧ (∀ b r, 0 ≤ b < m → 0 ≤ r < len conditions →
         d !! team_name ((shuffle rng (range num_teams)).1
                           !!! Z.to_nat (b * len conditions + r))
         = Some (row_sequence conditions r))
    ∧ (∀ name sequence, d !! name = Some sequence →
         ∃ r, 0 ≤ r < len conditions ∧ sequence = row_sequence conditions r)
    ∧ (∀ i, 0 ≤ i < num_teams → is_Some (d !! team_name i)).
Proof.
  intros Hk Hm Hn.
  destruct (assign_teams_entries shuffle shuffle_perm num_teams m
              conditions rng) as (d & Hrun & Hentries & Hkeys);
    [lia..|done|].
  exists d. rewrite Hrun. split; [done|]. split; [|split].
  - intros b r Hb Hr. apply elem_of_map_to_list. rewrite Hentries.
    unfold all_entries. apply list_elem_of_bind. exists b.
    split; [|by apply elem_of_range].
    unfold block_entries. apply list_elem_of_fmap. exists r.
    split; [done|by apply elem_of_range].
  - intros name sequence Hlookup.
    assert (sequence ∈ (all_entries conditions
              (shuffle rng (range num_teams)).1 m).*2) as Hseq.
    { rewrite <- Hentries. apply list_elem_of_fmap.
      exists (name, sequence). by rewrite elem_of_map_to_list. }
    rewrite all_entries_values in Hseq.
    apply list_elem_of_bind in Hseq as (b & Hseq & _).
    apply list_elem_of_fmap in Hseq as (r & -> & Hr%elem_of_range).
    by exists r.
  - intros i Hi.
    assert (team_name i ∈ (map_to_list d).*1) as Hin.
    { rewrite Hentries, Hkeys, shuffle_perm.
      apply list_elem_of_fmap. exists i. by rewrite elem_of_range. }
    apply list_elem_of_fmap in Hin as ([name v] & Hname & Hv).
    simpl in Hname. subst name. exists v. by apply elem_of_map_to_list.
Qed.

(** X3. On a valid input every team's sequence is [conditions] rotated
    left by some [r < k]; in particular it is a rearrangement of
    [conditions], so each team meets every condition exactly as often as
    it is listed. *)
Theorem assign_teams_sequences_rotate (num_teams m : Z)
    (conditions : list string) (rng : RandomState) :
  1 ≤ len conditions → 0 < m → num_teams = m * len conditions →
  ∃ d, (assign_teams shuffle num_teams conditions rng).1 = Ok d
    ∧ ∀ name sequence, d !! name = Some sequence →
        sequence ≡ₚ conditions
        ∧ ∃ r, 0 ≤ r < len conditions
             ∧ sequence = rotate (Z.to_nat r) conditions.
Proof.
  intros Hk Hm Hn.
  destruct (assign_teams_lookup num_teams m conditions rng)
    as (d & Hrun & _ & Hvalues & _); [lia..|done|].
  exists d. split; [done|]. intros name sequence Hlookup.
  destruct (Hvalues _ _ Hlookup) as (r & Hr & ->).
  rewrite row_sequence_rotate by lia. split; [|by exists r].
  unfold rotate. rewrite Permutation_app_comm. by rewrite take_drop.
Qed.

(** X4. On a valid input with pairwise distinct labels, two different
    rows of one block never hold the same label at the same position:
    the teams at shuffled positions [b*k + r] and [b*k + r'] differ at
    every position [p]. *)
Theorem assign_teams_block_rows_differ (num_teams m : Z)
    (conditions : list string) (rng : RandomState) :
  1 ≤ len conditions → 0 < m → num_teams = m * len conditions →
  NoDup conditions →
  ∃ d, (assign_teams shuffle num_teams conditions rng).1 = Ok d
    ∧ ∀ b r r' p, 0 ≤ b < m → 0 ≤ r < len conditions →
        0 ≤ r' < len conditions → r ≠ r' → 0 ≤ p < len conditions →
        ∃ team_no team_no' sequence sequence' c c',
          getitem (shuffle rng (range num_teams)).1 (b * len conditions + r)
            = Ok team_no
          ∧ getitem (shuffle rng (range num_teams)).1
              (b * len conditions + r') = Ok team_no'
          ∧ d !! ("Team " +:+ str (team_no + 1)) = Some sequence
          ∧ d !! ("Team " +:+ str (team_no' + 1)) = Some sequence'
          ∧ getitem sequence p = Ok c
          ∧ getitem sequence' p = Ok c'
          ∧ c ≠ c'.
Proof.
  intros Hk Hm Hn Hnd.
  destruct (assign_teams_lookup num_teams m conditions rng)
    as (d & Hrun & Hrows & _ & _); [lia..|done|].
  exists d. split; [done|]. intros b r r' p Hb Hr Hr' Hne Hp.
  set (sigma := (shuffle rng (range num_teams)).1) in *.
  assert (len sigma = num_teams) as Hlen
    by (apply (shuffled_len shuffle shuffle_perm); nia).
  set (k := len conditions) in *.
  assert (∀ x, 0 ≤ x < k → len (row_sequence conditions x) = k) as Hrowlen.
  { intros x _. apply (row_sequence_labels conditions x). unfold k in Hk. lia. }
  assert (∀ x, 0 ≤ x < k →
            row_sequence conditions x !!! Z.to_nat p
            = conditions !!! Z.to_nat ((x + p) `mod` k)) as Hcell.
  { intros x _. apply list_lookup_total_correct. unfold row_sequence.
    by rewrite list_lookup_fmap, range_lookup. }
  exists (sigma !!! Z.to_nat (b * k + r)), (sigma !!! Z.to_nat (b * k + r')),
    (row_sequence conditions r), (row_sequence conditions r').
  eexists _, _.
  split; [apply getitem_ok; nia|]. split; [apply getitem_ok; nia|].
  split; [by apply Hrows|]. split; [by apply Hrows|].
  split; [apply getitem_ok; rewrite Hrowlen; lia|].
  split; [apply getitem_ok; rewrite Hrowlen; lia|].
  rewrite !Hcell by done. intros Heq.
  pose proof (Z.mod_pos_bound (r + p) k ltac:(lia)) as Hb1.
  pose proof (Z.mod_pos_bound (r' + p) k ltac:(lia)) as Hb2.
  destruct (lookup_lt_is_Some_2 conditions (Z.to_nat ((r + p) `mod` k)))
    as [c Hc]; [unfold k, len in *; lia|].
  destruct (lookup_lt_is_Some_2 conditions (Z.to_nat ((r' + p) `mod` k)))
    as [c' Hc']; [unfold k, len in *; lia|].
  rewrite (list_lookup_total_correct _ _ _ Hc),
    (list_lookup_total_correct _ _ _ Hc') in Heq. subst c'.
  pose proof (NoDup_lookup _ _ _ _ Hnd Hc Hc') as Hidx.
  apply Hne. apply (shift_mod_inj k p); [done..|].
  rewrite (Z.add_comm p r), (Z.add_comm p r'). lia.
Qed.

(** X5. With at least one condition and a shuffle that permutes,
    [assign_teams] returns a mapping exactly when [num_teams] is a
    multiple of [k]; it never ends in [IndexError] or
    [ZeroDivisionError]. *)
Theorem assign_teams_succeeds_iff (num_teams : Z) (conditions : list string)
    (rng : RandomState) :
  1 ≤ len conditions →
  ((∃ d, (assign_teams shuffle num_teams conditions rng).1 = Ok d)
   ↔ num_teams `mod` len conditions = 0)
  ∧ (assign_teams shuffle num_teams conditions rng).1 ≠ Raise IndexError
  ∧ (assign_teams shuffle num_teams conditions rng).1
    ≠ Raise ZeroDivisionError.
Proof.
  intros Hk.
  destruct (decide (num_teams `mod` len conditions = 0)) as [Hmod|Hmod].
  - assert (∃ d, (assign_teams shuffle num_teams conditions rng).1 = Ok d)
      as [d Hd].
    { destruct (Z.le_gt_cases num_teams 0) as [Hn|Hn].
      - exists ∅. rewrite assign_teams_checked by (done || lia). simpl.
        unfold assign_blocks, range.
        rewrite (seqZ_nil 0 (num_teams `div` len conditions)); [done|].
        apply Z.div_le_upper_bound; lia.
      - apply Z.mod_divide in Hmod as [m Hm]; [|lia].
        destruct (assign_teams_entries shuffle shuffle_perm num_teams m
                    conditions rng) as (d & Hrun & _); [lia|nia|done|].
        exists d. by rewrite Hrun. }
    rewrite Hd. split; [|done]. split; [done|by exists d].
  - rewrite assign_teams_rejected by (done || lia). simpl.
    split; [|done]. split; [by intros [d [=]]|done].
Qed.

(** X6. A design with a single condition [c] accepts every
    [num_teams >= 1] and gives each of [Team 1] .. [Team num_teams] the
    one-element sequence [[c]]. *)
Theorem assign_teams_single_condition (num_teams : Z) (c : string)
    (rng : RandomState) :
  1 ≤ num_teams →
  ∃ d, (assign_teams shuffle num_teams [c] rng).1 = Ok d
    ∧ size d = Z.to_nat num_teams
    ∧ ∀ i, 1 ≤ i ≤ num_teams → d !! ("Team " +:+ str i) = Some [c].
Proof.
  intros Hn.
  destruct (assign_teams_lookup num_teams num_teams [c] rng)
    as (d & Hrun & _ & Hvalues & Hkeys); [by vm_compute|lia| |].
  { unfold len. simpl. lia. }
  destruct (assign_teams_entries shuffle shuffle_perm num_teams num_teams
              [c] rng) as (d' & Hrun' & Hentries & Hk);
    [by vm_compute|lia| |].
  { unfold len. simpl. lia. }
  rewrite Hrun' in Hrun. simpl in Hrun. injection Hrun as <-.
  exists d'. rewrite Hrun'. split; [done|]. split.
  - rewrite <- length_map_to_list, <- (length_fmap fst), Hentries, Hk.
    rewrite length_fmap, shuffle_perm. unfold range. by rewrite length_seqZ.
  - intros i Hi. destruct (Hkeys (i - 1)) as [v Hv]; [lia|].
    unfold team_name in Hv. replace (i - 1 + 1) with i in Hv by lia.
    rewrite Hv. f_equal.
    destruct (Hvalues _ _ Hv) as (r & Hr & ->).
    assert (r = 0) as -> by (unfold len in Hr; simpl in Hr; lia).
    reflexivity.
Qed.
End Sequences.

(** ** The insertion-ordered dictionary and what [main] prints *)

Lemma odict_set_to_map d key value :
  list_to_map (odict_set d key value)
  = <[key := value]> (list_to_map d : gmap string (list string)).
Proof.
  induction d as [|[key' value'] d IH]; simpl; [done|].
  destruct (decide (key' = key)) as [->|Hne]; simpl.
  - by rewrite insert_insert_eq.
  - by rewrite IH, insert_insert_ne.
Qed.

Lemma odict_set_fresh d key value :
  key ∉ d.*1 → odict_set d key value = d ++ [(key, value)].
Proof.
  induction d as [|[key' value'] d IH]; simpl; [done|].
  intros [Hne Hd]%not_elem_of_cons.
  destruct (decide (key' = key)) as [->|_]; [done|]. by rewrite IH.
Qed.

Lemma odict_set_present d key value :
  key ∈ d.*1 → (odict_set d key value).*1 = d.*1.
Proof.
  induction d as [|[key' value'] d IH]; simpl; [by inversion 1|].
  intros Hin. destruct (decide (key' = key)) as [->|Hne]; simpl; [done|].
  f_equal. apply IH. apply elem_of_cons in Hin as [->|Hin]; done.
Qed.

Lemma odict_set_NoDup d key value :
  NoDup d.*1 → NoDup (odict_set d key value).*1.
Proof.
  intros Hnd. destruct (decide (key ∈ d.*1)) as [Hin|Hin].
  - by rewrite odict_set_present.
  - rewrite odict_set_fresh, fmap_app by done. simpl.
    apply NoDup_app. split; [done|]. split; [|apply NoDup_singleton].
    intros x Hx ->%list_elem_of_singleton. done.
Qed.

Lemma foldl_odict_set_fresh (d es : list (string * list string)) :
  NoDup (d.*1 ++ es.*1) →
  foldl (λ d' e, odict_set d' e.1 e.2) d es = d ++ es.
Proof.
  revert d. induction es as [|[key value] es IH]; intros d Hnd; simpl.
  - by rewrite app_nil_r.
  - simpl in Hnd. rewrite odict_set_fresh.
    + rewrite IH; [by rewrite <- app_assoc|].
      rewrite fmap_app. simpl. by rewrite <- app_assoc.
    + apply NoDup_app in Hnd as (_ & Hdisj & _).
      intros Hin. apply (Hdisj _ Hin). by left.
Qed.

Lemma for_each_refines {A}
    (body1 : list (string * list string) → A
             → result (list (string * list string)))
    (body2 : gmap string (list string) → A
             → result (gmap string (list string)))
    (l : list A) items d :
  (∀ items' d' x, refines (Ok items') (Ok d') →
     refines (body1 items' x) (body2 d' x)) →
  refines (Ok items) (Ok d) →
  refines (for_each body1 items l) (for_each body2 d l).
Proof.
  intros Hbody. revert items d.
  induction l as [|x l IH]; intros items d Hrel; simpl; [done|].
  specialize (Hbody items d x Hrel).
  destruct (body1 items x) as [items'|e1], (body2 d x) as [d'|e2];
    simpl in *; try done.
  by apply IH.
Qed.

Lemma assign_blocks_ordered_refines conditions team_indices k m square :
  refines (assign_blocks_ordered conditions team_indices k m square)
          (assign_blocks conditions team_indices k m square).
Proof.
  unfold assign_blocks_ordered, assign_blocks.
  apply for_each_refines; [|split; [done|constructor]].
  intros items d b Hrel. apply for_each_refines; [|done].
  intros items' d' [r row] [Hmap Hnd].
  unfold assign_row_ordered, assign_row. simpl.
  destruct (getitem team_indices (b * k + r)) as [team_no|e]; simpl; [|done].
  destruct (comprehension (getitem conditions) row) as [sequence|e]; simpl;
    [|done].
  split; [by rewrite odict_set_to_map, Hmap|by apply odict_set_NoDup].
Qed.

Lemma assign_teams_ordered_refines {RandomState}
    (shuffle : RandomState → list Z → list Z * RandomState)
    (num_teams : Z) (conditions : list string) (rng : RandomState) :
  refines (assign_teams_ordered shuffle num_teams conditions rng).1
          (assign_teams shuffle num_teams conditions rng).1
  ∧ (assign_teams_ordered shuffle num_teams conditions rng).2
    = (assign_teams shuffle num_teams conditions rng).2.
Proof.
  unfold assign_teams_ordered, assign_teams.
  destruct (py_mod num_teams (len conditions)) as [r|e]; simpl; [|done].
  destruct (negb (r =? 0)); simpl; [done|].
  destruct (shuffle rng (range num_teams)) as [team_indices rng']. simpl.
  split; [apply assign_blocks_ordered_refines|done].
Qed.

(** X7. Whatever the inputs and the shuffle, [main] prints one line
    [name: label, label, ...] for each entry of the mapping that
    [assign_teams] returns, and nothing else; when [assign_teams] raises,
    the same exception ends [main] and no line is printed.  The random
    source is left as [assign_teams] leaves it. *)
Theorem main_prints_the_mapping {RandomState}
    (shuffle : RandomState → list Z → list Z * RandomState)
    (seed : Z → RandomState)
    (args_teams : Z) (args_conditions : list string) (args_seed : option Z)
    (rng : RandomState) :
  match (main_print shuffle seed args_teams args_conditions args_seed rng).1,
        (main shuffle seed args_teams args_conditions args_seed rng).1 with
  | Ok lines, Ok d =>
      lines ≡ₚ (λ e, e.1 +:+ ": " +:+ join ", " e.2) <$> map_to_list d
  | Raise e1, Raise e2 => e1 = e2
  | _, _ => False
  end
  ∧ (main_print shuffle seed args_teams args_conditions args_seed rng).2
    = (main shuffle seed args_teams args_conditions args_seed rng).2.
Proof.
  unfold main_print, main.
  set (rng0 := match args_seed with Some s => seed s | None => rng end).
  destruct (assign_teams_ordered_refines shuffle args_teams args_conditions
              rng0) as [Hrel Hrng].
  destruct (assign_teams_ordered shuffle args_teams args_conditions rng0)
    as [[items|e1] rng1],
    (assign_teams shuffle args_teams args_conditions rng0) as [[d|e2] rng2];
    simpl in *; try done.
  destruct Hrel as [<- Hnd]. split; [|done].
  by rewrite map_to_list_to_map.
Qed.

Lemma assign_blocks_ordered_ok conditions team_indices (m : Z) :
  0 < len conditions → len team_indices = m * len conditions →
  NoDup team_indices →
  assign_blocks_ordered conditions team_indices (len conditions) m
    (latin_square (len conditions))
  = Ok (all_entries conditions team_indices m).
Proof.
  intros Hk Hlen Hnd. unfold assign_blocks_ordered.
  rewrite (for_each_ok _
    (λ d b, foldl (λ d' e, odict_set d' e.1 e.2) d
              (block_entries conditions team_indices b))).
  - rewrite foldl_bind. fold (all_entries conditions team_indices m).
    rewrite foldl_odict_set_fresh; [done|]. simpl.
    rewrite all_entries_keys by (done || lia). by apply NoDup_fmap_2; [apply _|].
  - intros d b Hb%elem_of_range.
    rewrite enumerate_latin_square. unfold block_entries.
    rewrite (for_each_ok _ (λ d' e, odict_set d'
      (team_name (team_indices !!! Z.to_nat (b * len conditions + e.1)))
      (row_sequence conditions e.1))).
    + by rewrite !foldl_fmap.
    + intros d' e (r & -> & Hr%elem_of_range)%list_elem_of_fmap.
      unfold assign_row_ordered. simpl.
      rewrite getitem_ok by nia. simpl.
      by rewrite comprehension_row.
Qed.

(** X8. On a valid input, with a shuffle that permutes, [main] prints
    [num_teams] lines in the order of the shuffled list: line number
    [b*k + r] is for the team found at that shuffled position and lists
    the labels of square row [r], joined by [", "] after the team's
    name and [": "]. *)
Theorem main_prints_in_shuffled_order {RandomState}
    (shuffle : RandomState → list Z → list Z * RandomState)
    (seed : Z → RandomState)
    (num_teams m : Z) (conditions : list string) (args_seed : option Z)
    (rng : RandomState) :
  (∀ rng' l, (shuffle rng' l).1 ≡ₚ l) →
  1 ≤ len conditions → 0 < m → num_teams = m * len conditions →
  ∃ lines,
    (main_print shuffle seed num_teams conditions args_seed rng).1 = Ok lines
    ∧ len lines = num_teams
    ∧ ∀ b r, 0 ≤ b < m → 0 ≤ r < len conditions →
        ∃ team_no row,
          getitem
            (shuffle (match args_seed with Some s => seed s | None => rng end)
               (range num_teams)).1
            (b * len conditions + r) = Ok team_no
          ∧ getitem (latin_square (len conditions)) r = Ok row
          ∧ getitem lines (b * len conditions + r)
            = Ok ("Team " +:+ str (team_no + 1) +:+ ": " +:+
                  join ", " ((λ col, conditions !!! Z.to_nat col) <$> row)).
Proof.
  intros Hperm Hk Hm Hn. unfold main_print.
  set (rng0 := match args_seed with Some s => seed s | None => rng end).
  set (sigma := (shuffle rng0 (range num_teams)).1).
  assert (len sigma = num_teams) as Hlen
    by (apply (shuffled_len shuffle Hperm); nia).
  assert (assign_teams_ordered shuffle num_teams conditions rng0
          = (Ok (all_entries conditions sigma m),
             (shuffle rng0 (range num_teams)).2)) as Hrun.
  { unfold assign_teams_ordered, py_mod.
    destruct (Z.eqb_spec (len conditions) 0) as [|_]; [lia|].
    assert (num_teams `mod` len conditions = 0) as ->
      by (rewrite Hn; apply Z.mod_mul; lia).
    assert (num_teams `div` len conditions = m) as ->
      by (rewrite Hn; apply Z.div_mul; lia).
    simpl. subst sigma.
    destruct (shuffle rng0 (range num_teams)) as [team_indices rng1] eqn:Hs.
    simpl in *. rewrite assign_blocks_ordered_ok; [done|lia|lia|].
    pose proof (Hperm rng0 (range num_teams)) as Hp. rewrite Hs in Hp.
    simpl in Hp. rewrite Hp. apply NoDup_seqZ. }
  rewrite Hrun. simpl. eexists. split; [done|].
  assert (all_entries conditions sigma m
          = (λ i, (team_name (sigma !!! Z.to_nat i),
                   row_sequence conditions (i `mod` len conditions)))
              <$> range num_teams) as Hflat.
  { unfold all_entries, block_entries.
    rewrite (bind_ext_in _ (λ b,
      (λ i, (team_name (sigma !!! Z.to_nat i),
             row_sequence conditions (i `mod` len conditions)))
        <$> ((λ r, b * len conditions + r) <$> range (len conditions)))).
    - rewrite <- fmap_bind_blocks.
      rewrite <- (Z2Nat.id m) by lia. rewrite range_blocks by lia.
      by rewrite Z2Nat.id, Hn by lia.
    - intros b _. rewrite <- list_fmap_compose. apply list_fmap_ext.
      intros _ r Hr%list_elem_of_lookup_2%elem_of_range. simpl.
      rewrite Z.add_comm, Z.mod_add, Z.mod_small by lia. done. }
  assert (len (print_line <$> all_entries conditions sigma m) = num_teams)
    as Hlines.
  { unfold len. rewrite length_fmap, Hflat, length_fmap.
    unfold range. rewrite length_seqZ. lia. }
  split; [exact Hlines|].
  intros b r Hb Hr.
  destruct (row_sequence_square conditions r Hr) as [Hrow Hseq].
  exists (sigma !!! Z.to_nat (b * len conditions + r)). eexists.
  split; [apply getitem_ok; nia|]. split; [exact Hrow|].
  rewrite getitem_ok by (rewrite Hlines; nia).
  f_equal. apply list_lookup_total_correct.
  rewrite Hflat, <- list_fmap_compose, list_lookup_fmap.
  rewrite range_lookup by nia. simpl. unfold print_line, team_name.
  simpl. rewrite <- Hseq.
  assert ((b * len conditions + r) `mod` len conditions = r) as ->;
    [|done].
  by rewrite Z.add_comm, Z.mod_add, Z.mod_small by lia.
Qed.

(** * The metrics relay *)

Section RelayFacts.
Context {V : Type}.
Variable format : V → string.

Lemma generate_message_nonempty (metrics : list (string * V)) :
  generate_message format metrics ≠ "".
Proof. unfold generate_message. simpl. discriminate. Qed.

(** X9. The handler always answers with a dictionary whose only key is
    ["message"].  The message is empty exactly when an earlier answer was
    sent less than ten seconds before [now] (which includes a clock that
    went backwards); then the recorded time is kept.  Otherwise the message
    is the generated one, never empty, and [now] is recorded. *)
Theorem handle_metrics_empty_iff_throttled (now : Z)
    (payload_data : list (string * V)) (last : option Z) :
  dom (handle_metrics format now payload_data last).1 = {[ "message" ]}
  ∧ ((handle_metrics format now payload_data last).1 !! "message" = Some ""
     ↔ ∃ t, last = Some t ∧ now - t < 10 * 1000000)
  ∧ ((∃ t, last = Some t ∧ now - t < 10 * 1000000) →
     (handle_metrics format now payload_data last).2 = last)
  ∧ (¬ (∃ t, last = Some t ∧ now - t < 10 * 1000000) →
     handle_metrics format now payload_data last
     = ({[ "message" := generate_message format payload_data ]}, Some now)).
Proof.
  pose proof (generate_message_nonempty payload_data) as Hne.
  unfold handle_metrics. destruct last as [t|].
  - change _min_interval with (10 * 1000000).
    destruct (Z.ltb_spec (now - t) (10 * 1000000)) as [Hlt|Hge]; simpl.
    + rewrite dom_singleton_L, lookup_singleton_eq.
      split; [done|]. split; [|split; [done|]].
      * split; [|done]. intros _. by exists t.
      * intros []. by exists t.
    + rewrite dom_singleton_L, lookup_singleton_eq.
      split; [done|]. split; [|split; [|done]].
      * split; [by intros [=]|]. intros (t' & [= <-] & Hlt). lia.
      * intros (t' & [= <-] & Hlt). lia.
  - simpl. rewrite dom_singleton_L, lookup_singleton_eq.
    split; [done|]. split; [|split; [|done]].
    + split; [by intros [=]|]. by intros (t' & [=] & _).
    + by intros (t' & [=] & _).
Qed.

Lemma answered_cons_message now (msg : string) log :
  msg ≠ "" →
  answered ((now, {[ "message" := msg ]}) :: log) = now :: answered log.
Proof.
  intros Hmsg. unfold answered. rewrite filter_cons_True; [done|].
  simpl. rewrite lookup_singleton_eq. congruence.
Qed.

Lemma answered_cons_empty now log :
  answered ((now, {[ "message" := "" ]}) :: log) = answered log.
Proof.
  unfold answered. rewrite filter_cons_False; [done|].
  simpl. rewrite lookup_singleton_eq. by intros [].
Qed.

Lemma serve_cons now payload_data rest last :
  serve format ((now, payload_data) :: rest) last
  = ((now, (handle_metrics format now payload_data last).1)
       :: (serve format rest
             (handle_metrics format now payload_data last).2).1,
     (serve format rest (handle_metrics format now payload_data last).2).2).
Proof.
  simpl. destruct (handle_metrics format now payload_data last).
  simpl. by destruct (serve format rest o).
Qed.

Lemma serve_spacing requests last :
  (∀ t0, last = Some t0 →
     Forall (λ t, _min_interval ≤ t - t0)
       (answered (serve format requests last).1))
  ∧ StronglySorted (λ a b, _min_interval ≤ b - a)
      (answered (serve format requests last).1).
Proof.
  revert last. induction requests as [|[now payload_data] rest IH];
    intros last.
  { simpl. split; [by intros|constructor]. }
  rewrite serve_cons. simpl.
  pose proof (generate_message_nonempty payload_data) as Hne.
  assert (0 < _min_interval) as Hpos by done.
  unfold handle_metrics. destruct last as [t|].
  - destruct (Z.ltb_spec (now - t) _min_interval) as [Hlt|Hge]; simpl.
    + rewrite answered_cons_empty. apply IH.
    + rewrite answered_cons_message by done.
      destruct (IH (Some now)) as [Hall Hsorted].
      specialize (Hall now eq_refl). split.
      * intros t0 [= <-]. constructor; [done|].
        eapply Forall_impl; [exact Hall|]. simpl. intros; lia.
      * by constructor.
  - simpl. rewrite answered_cons_message by done.
    destruct (IH (Some now)) as [Hall Hsorted].
    specialize (Hall now eq_refl). split; [done|by constructor].
Qed.

(** X10. Over any run of requests, whatever their clock readings and the
    recorded time at the start, two answers that carry a message are at
    least ten seconds apart, and none comes less than ten seconds after
    the time recorded at the start. *)
Theorem answers_ten_seconds_apart
    (requests : list (Z * list (string * V))) (last : option Z) :
  StronglySorted (λ earlier later, 10 * 1000000 ≤ later - earlier)
    (answered (serve format requests last).1)
  ∧ ∀ t0 t, last = Some t0 →
      t ∈ answered (serve format requests last).1 →
      10 * 1000000 ≤ t - t0.
Proof.
  destruct (serve_spacing requests last) as [Hall Hsorted].
  split; [exact Hsorted|]. intros t0 t Hlast Ht.
  specialize (Hall t0 Hlast). rewrite Forall_forall in Hall.
  by apply Hall.
Qed.

(** X11. Requests that are throttled do not push the next answer back:
    after an answer at [t], a burst of requests all within ten seconds of
    [t] gets empty messages and leaves [t] recorded, and a request at
    least ten seconds after [t] is answered, however recent the burst. *)
Theorem throttled_requests_keep_window (t now : Z)
    (burst : list (Z * list (string * V)))
    (payload_data : list (string * V)) :
  Forall (λ request, request.1 - t < 10 * 1000000) burst →
  10 * 1000000 ≤ now - t →
  serve format (burst ++ [(now, payload_data)]) (Some t)
  = (((λ request, (request.1, {[ "message" := "" ]})) <$> burst)
       ++ [(now, {[ "message" := generate_message format payload_data ]})],
     Some now).
Proof.
  intros Hburst Hnow.
  induction Hburst as [|[now' payload'] burst Hlt _ IH].
  - simpl. change _min_interval with (10 * 1000000).
    by destruct (Z.ltb_spec (now - t) (10 * 1000000)); [lia|].
  - rewrite <- app_comm_cons, serve_cons. simpl in *.
    change _min_interval with (10 * 1000000).
    destruct (Z.ltb_spec (now' - t) (10 * 1000000)); [|lia]. simpl.
    by rewrite IH.
Qed.
End RelayFacts.

(** ** The further properties at concrete inputs *)

Example main_print_six_by_three :
  (main_print Rotor.shuffle Rotor.seed 6 ["Control"; "HPM"; "AIPM"]
     (Some 1) 0%nat).1
  = Ok ["Team 2: Control, HPM, AIPM"; "Team 3: HPM, AIPM, Control";
        "Team 4: AIPM, Control, HPM"; "Team 5: Control, HPM, AIPM";
        "Team 6: HPM, AIPM, Control"; "Team 1: AIPM, Control, HPM"].
Proof. by vm_compute. Qed.

Example generate_message_two_metrics :
  generate_message str [("wood", 3); ("stone", 5)]
  = "Received metrics: wood=3, stone=5"
  ∧ generate_message str [] = "Received metrics: ".
Proof. by vm_compute. Qed.

Lemma assign_teams_sequences_rotate_witness :
  ∃ d, (assign_teams Rotor.shuffle 6 ["Control"; "HPM"; "AIPM"] 1%nat).1
       = Ok d
    ∧ ∀ name sequence, d !! name = Some sequence →
        sequence ≡ₚ ["Control"; "HPM"; "AIPM"]
        ∧ ∃ r, 0 ≤ r < len ["Control"; "HPM"; "AIPM"]
             ∧ sequence = rotate (Z.to_nat r) ["Control"; "HPM"; "AIPM"].
Proof.
  apply (assign_teams_sequences_rotate Rotor.shuffle Rotor_shuffle_perm 6 2
           ["Control"; "HPM"; "AIPM"] 1%nat).
  - vm_compute. discriminate.
  - lia.
  - reflexivity.
Defined.

Lemma assign_teams_block_rows_differ_witness :
  ∃ d, (assign_teams Rotor.shuffle 6 ["Control"; "HPM"; "AIPM"] 1%nat).1
       = Ok d
    ∧ ∀ b r r' p, 0 ≤ b < 2 → 0 ≤ r < len ["Control"; "HPM"; "AIPM"] →
        0 ≤ r' < len ["Control"; "HPM"; "AIPM"] → r ≠ r' →
        0 ≤ p < len ["Control"; "HPM"; "AIPM"] →
        ∃ team_no team_no' sequence sequence' c c',
          getitem (Rotor.shuffle 1%nat (range 6)).1
            (b * len ["Control"; "HPM"; "AIPM"] + r) = Ok team_no
          ∧ getitem (Rotor.shuffle 1%nat (range 6)).1
              (b * len ["Control"; "HPM"; "AIPM"] + r') = Ok team_no'
          ∧ d !! ("Team " +:+ str (team_no + 1)) = Some sequence
          ∧ d !! ("Team " +:+ str (team_no' + 1)) = Some sequence'
          ∧ getitem sequence p = Ok c
          ∧ getitem sequence' p = Ok c'
          ∧ c ≠ c'.
Proof.
  apply (assign_teams_block_rows_differ Rotor.shuffle Rotor_shuffle_perm 6 2
           ["Control"; "HPM"; "AIPM"] 1%nat).
  - vm_compute. discriminate.
  - lia.
  - reflexivity.
  - apply (bool_decide_unpack (NoDup ["Control"; "HPM"; "AIPM"])).
    by vm_compute.
Defined.

Lemma assign_teams_succeeds_iff_witness :
  ((∃ d, (assign_teams Rotor.shuffle 7 ["A"; "B"; "C"] 0%nat).1 = Ok d)
   ↔ 7 `mod` len ["A"; "B"; "C"] = 0)
  ∧ (assign_teams Rotor.shuffle 7 ["A"; "B"; "C"] 0%nat).1 ≠ Raise IndexError
  ∧ (assign_teams Rotor.shuffle 7 ["A"; "B"; "C"] 0%nat).1
    ≠ Raise ZeroDivisionError.
Proof.
  apply (assign_teams_succeeds_iff Rotor.shuffle Rotor_shuffle_perm 7
           ["A"; "B"; "C"] 0%nat).
  vm_compute. discriminate.
Defined.

Lemma assign_teams_single_condition_witness :
  ∃ d, (assign_teams Rotor.shuffle 4 ["OnlyCond"] 2%nat).1 = Ok d
    ∧ size d = Z.to_nat 4
    ∧ ∀ i, 1 ≤ i ≤ 4 → d !! ("Team " +:+ str i) = Some ["OnlyCond"].
Proof.
  apply (assign_teams_single_condition Rotor.shuffle Rotor_shuffle_perm 4
           "OnlyCond" 2%nat).
  lia.
Defined.

Lemma main_prints_in_shuffled_order_witness :
  ∃ lines,
    (main_print Rotor.shuffle Rotor.seed 6 ["Control"; "HPM"; "AIPM"]
       (Some 1) 0%nat).1 = Ok lines
    ∧ len lines = 6
    ∧ ∀ b r, 0 ≤ b < 2 → 0 ≤ r < len ["Control"; "HPM"; "AIPM"] →
        ∃ team_no row,
          getitem
            (Rotor.shuffle
               (match Some 1 with Some s => Rotor.seed s | None => 0%nat end)
               (range 6)).1
            (b * len ["Control"; "HPM"; "AIPM"] + r) = Ok team_no
          ∧ getitem (latin_square (len ["Control"; "HPM"; "AIPM"])) r = Ok row
          ∧ getitem lines (b * len ["Control"; "HPM"; "AIPM"] + r)
            = Ok ("Team " +:+ str (team_no + 1) +:+ ": " +:+
                  join ", "
                    ((λ col, ["Control"; "HPM"; "AIPM"] !!! Z.to_nat col)
                       <$> row)).
Proof.
  apply (main_prints_in_shuffled_order Rotor.shuffle Rotor.seed 6 2
           ["Control"; "HPM"; "AIPM"] (Some 1) 0%nat).
  - apply Rotor_shuffle_perm.
  - vm_compute. discriminate.
  - lia.
  - reflexivity.
Defined.

Lemma throttled_requests_keep_window_witness :
  serve str
    ([(3000000, [("wood", 1)]); (9999999, [("wood", 2)])]
       ++ [(10000000, [("wood", 3)])]) (Some 0)
  = (((λ request : Z * list (string * Z),
         (request.1, {[ "message" := "" ]}))
        <$> [(3000000, [("wood", 1)]); (9999999, [("wood", 2)])])
       ++ [(10000000,
            {[ "message" := generate_message str [("wood", 3)] ]})],
     Some 10000000).
Proof.
  apply (throttled_requests_keep_window str 0 10000000
           [(3000000, [("wood", 1)]); (9999999, [("wood", 2)])]
           [("wood", 3)]).
  - repeat constructor; simpl; lia.
  - lia.
Defined.
